(** * Dice engine: parser, roller and roll service

    A shallow embedding of [src/lib/dice-parser.ts], [src/lib/dice-roller.ts],
    [src/services/dice.service.ts] and of the model classes they build, with
    the properties of the design document stated over it.

    Conventions of the embedding:
    - a JavaScript string is a [string] of 8-bit characters read as the
      Latin-1 range of UTF-16 code units;
    - a JavaScript number is a [Js.number]: the integer it denotes (every
      number of this program is one), rounded as a double rounds wherever the
      code computes it, or one of [Infinity], [-Infinity] and [NaN]; the
      counts, sides, rolls and subtotal of a dice group, which the parser's
      limits and the range of the random source keep far below 2^53, are held
      as [Z];
    - [throw] is the [Throw] constructor of [completion];
    - [crypto.randomInt] is a parameter threading an explicit generator state;
    - the [lastIndex] cursor of the global regular expression is the suffix of
      the input that is still to be scanned. *)

From Stdlib Require Import String Ascii List ZArith NArith Lia Bool.
From Stdlib Require Import DecimalString.
From Equations Require Import Equations.
Import ListNotations.

Open Scope string_scope.
Open Scope Z_scope.

(** ** JavaScript primitives used by the sources *)

Module Js.

(** WhiteSpace and LineTerminator code units below 256, as [String.prototype.trim]
    strips them: TAB, LF, VT, FF, CR, SP and NBSP. *)
Definition isWhiteSpace (c : ascii) : bool :=
  let n := N_of_ascii c in
  ((9 <=? n) && (n <=? 13) || (n =? 32) || (n =? 160))%N.

Definition isDigit (c : ascii) : bool :=
  let n := N_of_ascii c in ((48 <=? n) && (n <=? 57))%N.

Definition digitValue (c : ascii) : Z := Z.of_N (N_of_ascii c) - 48.

(** [toLowerCase] on one code unit: A-Z and the Latin-1 capitals (all of
    0xC0-0xDE but the multiplication sign 0xD7) move up by 32. *)
Definition lowerChar (c : ascii) : ascii :=
  let n := N_of_ascii c in
  if ((65 <=? n) && (n <=? 90) ||
      (192 <=? n) && (n <=? 222) && negb (n =? 215))%N
  then ascii_of_N (n + 32) else c.

Fixpoint toLowerCase (s : string) : string :=
  match s with
  | EmptyString => EmptyString
  | String c s' => String (lowerChar c) (toLowerCase s')
  end.

Fixpoint trimStart (s : string) : string :=
  match s with
  | EmptyString => EmptyString
  | String c s' => if isWhiteSpace c then trimStart s' else s
  end.

Fixpoint trimEnd (s : string) : string :=
  match s with
  | EmptyString => EmptyString
  | String c s' =>
      match trimEnd s' with
      | EmptyString => if isWhiteSpace c then EmptyString else String c EmptyString
      | t => String c t
      end
  end.

Definition trim (s : string) : string := trimEnd (trimStart s).

(** A string is truthy when it is not empty; [undefined] is falsy. *)
Definition truthy (o : option string) : bool :=
  match o with
  | Some (String _ _) => true
  | _ => false
  end.

(** The longest prefix of decimal digits, and what follows it. *)
Fixpoint spanDigits (s : string) : string * string :=
  match s with
  | EmptyString => (EmptyString, EmptyString)
  | String c s' =>
      if isDigit c
      then let (ds, rest) := spanDigits s' in (String c ds, rest)
      else (EmptyString, s)
  end.

Fixpoint digitsValue (acc : Z) (s : string) : Z :=
  match s with
  | EmptyString => acc
  | String c s' => if isDigit c then digitsValue (10 * acc + digitValue c) s' else acc
  end.

(** *** Numbers

    Every number this program computes is an integer: it comes from
    [parseInt] on digits, from [randomInt], or from adding such numbers.  A
    finite number is therefore held as the integer it denotes, always one that
    a double represents exactly.  [-0] is not told apart from [0]: it prints,
    compares and adds like [0]. *)
Inductive number : Type :=
| Num (z : Z)
| Infinity
| NegInfinity
| NaN.

(** The nearest double to a magnitude [a >= 0], ties to the even significand;
    [None] when it is beyond the largest double.  Below 2^53 every integer is
    a double; above, 53 bits of significand are kept. *)
Definition roundMagnitude (a : Z) : option Z :=
  if a <? 2 ^ 53 then Some a
  else
    let e := Z.log2 a - 52 in
    let q := a / 2 ^ e in
    let r := a mod 2 ^ e in
    let half := 2 ^ (e - 1) in
    let q' := if (half <? r) || ((r =? half) && Z.odd q) then q + 1 else q in
    let v := q' * 2 ^ e in
    if v <? 2 ^ 1024 then Some v else None.

(** The number an exact integer becomes. *)
Definition roundToDouble (z : Z) : number :=
  match roundMagnitude (Z.abs z) with
  | Some v => Num (if z <? 0 then - v else v)
  | None => if z <? 0 then NegInfinity else Infinity
  end.

(** [a + b]. *)
Definition add (a b : number) : number :=
  match a, b with
  | NaN, _ | _, NaN => NaN
  | Infinity, NegInfinity | NegInfinity, Infinity => NaN
  | Infinity, _ | _, Infinity => Infinity
  | NegInfinity, _ | _, NegInfinity => NegInfinity
  | Num x, Num y => roundToDouble (x + y)
  end.

(** [a < b] and [a <= b]: false as soon as one side is [NaN]. *)
Definition ltb (a b : number) : bool :=
  match a, b with
  | NaN, _ | _, NaN => false
  | Num x, Num y => x <? y
  | NegInfinity, NegInfinity => false
  | NegInfinity, _ => true
  | _, NegInfinity => false
  | Infinity, _ => false
  | Num _, Infinity => true
  end.

Definition leb (a b : number) : bool :=
  match a, b with
  | NaN, _ | _, NaN => false
  | Num x, Num y => x <=? y
  | NegInfinity, _ => true
  | _, NegInfinity => false
  | _, Infinity => true
  | Infinity, Num _ => false
  end.

(** [a > b] and [a >= b]. *)
Definition gtb (a b : number) : bool := ltb b a.
Definition geb (a b : number) : bool := leb b a.

(** A number held as an integer, entering the arithmetic of numbers. *)
Definition ofInteger (z : Z) : number := roundToDouble z.

(** The integer a finite number denotes. *)
Definition integerOf (n : number) : Z :=
  match n with
  | Num z => z
  | _ => 0
  end.

(** [parseInt(s, 10)]: leading white space, an optional sign, then the
    longest run of decimal digits; [NaN] when there is no digit; the value is
    the double nearest to the integer the digits spell, as V8 computes it
    (the standard lets an implementation read the digits after the twentieth
    as zeros): from 2^53 on it is rounded, and a long enough run of digits
    gives [Infinity]. *)
Definition parseInt (s : string) : number :=
  let s := trimStart s in
  let '(negative, rest) :=
    match s with
    | String "+" s' => (false, s')
    | String "-" s' => (true, s')
    | _ => (false, s)
    end in
  match spanDigits rest with
  | (EmptyString, _) => NaN
  | (ds, _) =>
      roundToDouble (if negative then - digitsValue 0 ds else digitsValue 0 ds)
  end.

(** An integer to string inside a template literal. *)
Definition numberToString (z : Z) : string :=
  NilZero.string_of_int (Z.to_int z).

(** A number to string inside a template literal.  Finite numbers print as
    decimal integers, which is what JavaScript does below 10^21 (above, it
    switches to exponent notation; the only numbers this program prints are
    counts and sides that are 0 or within the limits). *)
Definition toString (n : number) : string :=
  match n with
  | Num z => numberToString z
  | Infinity => "Infinity"
  | NegInfinity => "-Infinity"
  | NaN => "NaN"
  end.

(** [String.prototype.repeat]. *)
Fixpoint repeat (s : string) (n : nat) : string :=
  match n with
  | O => EmptyString
  | S n' => s ++ repeat s n'
  end.

(** [Array.prototype.join]. *)
Definition join (sep : string) (l : list string) : string := String.concat sep l.

(** [xs.reduce((sum, x) => sum + f(x), 0)] over the rolls of one group.  The
    rolls are integers between 1 and the number of sides; for every group the
    parser lets through (at most 1000 dice of at most 10000 sides) their
    partial sums stay far below 2^53, where the addition of numbers is the
    addition of integers (lemmas [reduceSum_as_numbers] and
    [rollDiceGroup_subtotal_as_numbers] below), so the sum is held as the
    integer it is. *)
Definition reduceSum {A : Type} (f : A -> Z) (xs : list A) : Z :=
  fold_left (fun sum x => sum + f x) xs 0.

(** [xs.reduce((sum, x) => sum + f(x), 0)] over numbers. *)
Definition reduceAdd {A : Type} (f : A -> number) (xs : list A) : number :=
  fold_left (fun sum x => add sum (f x)) xs (Num 0).

End Js.

(** ** The global regular expression of the parser *)

Module DicePattern.
Import Js.

(** The named groups of one match of
    [/(?<count>\d+)d(?<sides>\d+)|(?<modifier>[+-]\d+)/gi];
    a group of the alternative that did not take part is [undefined]. *)
Record RegExpMatch : Type := mkMatch {
  g_count : option string;
  g_sides : option string;
  g_modifier : option string
}.

(** The literal [d] under the [i] flag. *)
Definition isD (c : ascii) : bool :=
  ((N_of_ascii c =? 100) || (N_of_ascii c =? 68))%N.

Definition isSign (c : ascii) : bool :=
  ((N_of_ascii c =? 43) || (N_of_ascii c =? 45))%N.

(** Second alternative at the current position: a sign and a greedy run of
    digits. *)
Definition matchModifier (s : string) : option (RegExpMatch * string) :=
  match s with
  | String c s' =>
      if isSign c then
        match spanDigits s' with
        | (String d ds, rest) => Some (mkMatch None None (Some (String c (String d ds))), rest)
        | _ => None
        end
      else None
  | EmptyString => None
  end.

(** First alternative at the current position.  The greedy [\d+] takes the
    whole run of digits; giving digits back cannot help, since the character
    after a shorter run is a digit and not [d]. *)
Definition matchDice (s : string) : option (RegExpMatch * string) :=
  match spanDigits s with
  | (String c cs, String x afterD) =>
      if isD x then
        match spanDigits afterD with
        | (String d ds, rest) =>
            Some (mkMatch (Some (String c cs)) (Some (String d ds)) None, rest)
        | _ => None
        end
      else None
  | _ => None
  end.

(** A match anchored at the current position: alternatives in order. *)
Definition matchHere (s : string) : option (RegExpMatch * string) :=
  match matchDice s with
  | Some r => Some r
  | None => matchModifier s
  end.

(** [DICE_PATTERN.exec] from the current [lastIndex]: the leftmost match, and
    the input left after it (the new [lastIndex]); [None] is [null]. *)
Fixpoint exec (s : string) : option (RegExpMatch * string) :=
  match matchHere s with
  | Some r => Some r
  | None =>
      match s with
      | EmptyString => None
      | String _ s' => exec s'
      end
  end.

End DicePattern.

(** ** Types shared by the layers ([src/types/index.ts], the models and the
    error classes of the error-handling middleware) *)

Inductive AdvantageMode : Type := NONE | ADVANTAGE | DISADVANTAGE.

Record DiceGroup : Type := mkDiceGroup { count : Z; sides : Z }.

Record ValidationError : Type := mkValidationError { field : string; message : string }.

(** The two operational error classes; both carry their message. *)
Inductive AppError : Type :=
| AppValidationError (msg : string)
| ResourceLimitError (msg : string).

(** How a call ends: with a value or by throwing. *)
Inductive completion (A : Type) : Type :=
| Return (a : A)
| Throw (e : AppError).
Arguments Return {A} a.
Arguments Throw {A} e.

Record DiceExpressionModel : Type := mkDiceExpressionModel {
  original : string;
  diceGroups : list DiceGroup;
  modifiers : list Js.number;
  isValid : bool;
  validationErrors : list ValidationError
}.

Definition createInvalid (original : string) (errors : list ValidationError)
  : DiceExpressionModel :=
  mkDiceExpressionModel original [] [] false errors.

(** ** [DiceParser.parse] *)

Module DiceParser.
Import Js DicePattern.

Definition MAX_DICE : Z := 1000.
Definition MAX_SIDES : Z := 10000.

(** The locals of [parse] that the scanning loop updates. *)
Record Locals : Type := mkLocals {
  l_diceGroups : list DiceGroup;
  l_modifiers : list number;
  l_validationErrors : list ValidationError;
  l_hasValidTokens : bool
}.

Definition initialLocals : Locals := mkLocals [] [] [] false.

(** The body of the [while] loop for one match.  A group is pushed only for
    a count and sides that are above 0 and within the limits; the group holds
    the integers they denote. *)
Definition loopBody (m : RegExpMatch) (st : Locals) : completion Locals :=
  let groups := l_diceGroups st in
  let mods := l_modifiers st in
  let errs := l_validationErrors st in
  if truthy (g_count m) && truthy (g_sides m) then
    let count := parseInt (match g_count m with Some s => s | None => "" end) in
    let sides := parseInt (match g_sides m with Some s => s | None => "" end) in
    let errs :=
      if leb count (Num 0)
      then (errs ++ [mkValidationError "count"
                       ("Invalid dice count: " ++ toString count ++ ". Must be positive.")])%list
      else errs in
    let errs :=
      if leb sides (Num 0)
      then (errs ++ [mkValidationError "sides"
                       ("Invalid die sides: " ++ toString sides ++ ". Must be positive.")])%list
      else errs in
    if gtb count (Num MAX_DICE) then
      Throw (ResourceLimitError ("Dice count exceeds maximum of " ++ numberToString MAX_DICE))
    else if gtb sides (Num MAX_SIDES) then
      Throw (ResourceLimitError ("Die sides exceed maximum of " ++ numberToString MAX_SIDES))
    else
      let groups :=
        if gtb count (Num 0) && gtb sides (Num 0)
        then (groups ++ [mkDiceGroup (integerOf count) (integerOf sides)])%list
        else groups in
      Return (mkLocals groups mods errs true)
  else if truthy (g_modifier m) then
    let modifier := parseInt (match g_modifier m with Some s => s | None => "" end) in
    Return (mkLocals groups (mods ++ [modifier])%list errs true)
  else Return (mkLocals groups mods errs true).

Definition inspect {A : Type} (a : A) : { b : A | a = b } := exist _ a eq_refl.

Lemma spanDigits_length (s : string) :
  (String.length (fst (spanDigits s)) + String.length (snd (spanDigits s)) =
   String.length s)%nat.
Proof.
  induction s as [|c s IH]; simpl; [reflexivity|].
  destruct (isDigit c); simpl; [|reflexivity].
  destruct (spanDigits s) as [ds rest]; simpl in *. lia.
Qed.

Lemma matchModifier_shorter (s : string) (m : RegExpMatch) (rest : string) :
  matchModifier s = Some (m, rest) -> (String.length rest < String.length s)%nat.
Proof.
  destruct s as [|c s]; simpl; [discriminate|].
  destruct (isSign c); [|discriminate].
  pose proof (spanDigits_length s) as H.
  destruct (spanDigits s) as [[|d ds] r]; [discriminate|].
  intros E; inversion E; subst. simpl in H. lia.
Qed.

Lemma matchDice_shorter (s : string) (m : RegExpMatch) (rest : string) :
  matchDice s = Some (m, rest) -> (String.length rest < String.length s)%nat.
Proof.
  unfold matchDice.
  pose proof (spanDigits_length s) as H.
  destruct (spanDigits s) as [[|c cs] [|x afterD]]; try discriminate.
  destruct (isD x); [|discriminate].
  pose proof (spanDigits_length afterD) as H'.
  destruct (spanDigits afterD) as [[|d ds] r]; [discriminate|].
  intros E; inversion E; subst. simpl in *. lia.
Qed.

Lemma matchHere_shorter (s : string) (m : RegExpMatch) (rest : string) :
  matchHere s = Some (m, rest) -> (String.length rest < String.length s)%nat.
Proof.
  unfold matchHere. destruct (matchDice s) as [[m' r']|] eqn:E.
  - intros H; inversion H; subst. eapply matchDice_shorter; eassumption.
  - apply matchModifier_shorter.
Qed.

(** Every match consumes at least one character, so the loop ends. *)
Lemma exec_shorter (s : string) (m : RegExpMatch) (rest : string) :
  exec s = Some (m, rest) -> (String.length rest < String.length s)%nat.
Proof.
  induction s as [|c s IH]; simpl.
  - discriminate.
  - destruct (matchHere (String c s)) as [[m' r']|] eqn:E.
    + intros H; inversion H; subst.
      apply matchHere_shorter in E. exact E.
    + intros H. apply IH in H. simpl. lia.
Qed.

(** [while ((match = DICE_PATTERN.exec(trimmed)) !== null) { ... }], started
    with [lastIndex] at the beginning of [input]. *)
Equations? scan (input : string) (st : Locals) : completion Locals
  by wf (String.length input) lt :=
  scan input st with inspect (exec input) := {
    | exist _ None _ => Return st
    | exist _ (Some (m, rest)) Hexec with loopBody m st := {
        | Throw e => Throw e
        | Return st' => scan rest st' } }.
Proof. eapply exec_shorter; eassumption. Qed.

Definition parse (expression : string) : completion DiceExpressionModel :=
  let trimmed := toLowerCase (trim expression) in
  match trimmed with
  | EmptyString =>
      Return (createInvalid expression
                [mkValidationError "expression" "Expression cannot be empty"])
  | _ =>
      match scan trimmed initialLocals with
      | Throw e => Throw e
      | Return st =>
          if negb (l_hasValidTokens st) then
            Return (createInvalid expression
                      [mkValidationError "expression" "Invalid dice notation format"])
          else
            let validationErrors :=
              match l_diceGroups st with
              | [] => (l_validationErrors st ++
                       [mkValidationError "expression"
                          "Expression must contain at least one dice group (e.g., 1d6)"])%list
              | _ => l_validationErrors st
              end in
            match validationErrors with
            | [] => Return (mkDiceExpressionModel expression (l_diceGroups st)
                              (l_modifiers st) true [])
            | _ => Return (createInvalid expression validationErrors)
            end
      end
  end.

End DiceParser.

(** ** Roll results ([src/models/roll-result.model.ts] and the dice-roll model) *)

Record RollResultModel : Type := mkRollResultModel {
  notation : string;
  rolls : list Z;
  subtotal : Z
}.

Module DiceRoll.

(** [alternateRoll] is optional, and absent unless the service sets it. *)
#[warnings="-register-all"]
Inductive DiceRollModel : Type := mkDiceRollModel {
  expression : string;
  results : list RollResultModel;
  modifiers : list Js.number;
  total : Js.number;
  advantageMode : AdvantageMode;
  alternateRoll : option DiceRollModel;
  timestamp : string
}.

Definition setAlternateRoll (r alt : DiceRollModel) : DiceRollModel :=
  mkDiceRollModel (expression r) (results r) (modifiers r) (total r)
    (advantageMode r) (Some alt) (timestamp r).

End DiceRoll.

(** ** [DiceRoller] and [DiceService], over a random source *)

Section Rolling.

(** The state of the system generator behind [crypto.randomInt]. *)
Variable Rng : Type.

(** [randomInt min max g]: the value drawn and the generator afterwards. *)
Variable randomInt : Z -> Z -> Rng -> Z * Rng.

(** The clock: [now k] is what [new Date().toISOString()] returns the
    [k]-th time (counting from 0) it is evaluated while a request is handled.
    Every model constructed without a timestamp evaluates it once. *)
Variable now : nat -> string.

(** The [for] loop of [rollDiceGroup], [n] iterations to go. *)
Fixpoint rollLoop (n : nat) (sides : Z) (rolls : list Z) (g : Rng) : list Z * Rng :=
  match n with
  | O => (rolls, g)
  | S n' =>
      let (roll, g') := randomInt 1 (sides + 1) g in
      rollLoop n' sides (rolls ++ [roll])%list g'
  end.

Definition rollDiceGroup (diceGroup : DiceGroup) (g : Rng) : RollResultModel * Rng :=
  let count := count diceGroup in
  let sides := sides diceGroup in
  let (rolls, g') := rollLoop (Z.to_nat count) sides [] g in
  let subtotal := Js.reduceSum (fun roll => roll) rolls in
  let notation := Js.numberToString count ++ "d" ++ Js.numberToString sides in
  (mkRollResultModel notation rolls subtotal, g').

Definition rollWithAdvantage (diceGroup : DiceGroup) (g : Rng)
  : (RollResultModel * RollResultModel) * Rng :=
  let (primary, g1) := rollDiceGroup diceGroup g in
  let (alternate, g2) := rollDiceGroup diceGroup g1 in
  ((primary, alternate), g2).

(** [parsed.diceGroups.map((diceGroup) => DiceRoller.rollDiceGroup(diceGroup))]. *)
Fixpoint rollAll (groups : list DiceGroup) (g : Rng) : list RollResultModel * Rng :=
  match groups with
  | [] => ([], g)
  | dg :: rest =>
      let (r, g1) := rollDiceGroup dg g in
      let (rs, g2) := rollAll rest g1 in
      (r :: rs, g2)
  end.

Definition newDiceRollModel (expression : string) (results : list RollResultModel)
    (modifiers : list Js.number) (total : Js.number) (advantageMode : AdvantageMode)
    (reading : nat) : DiceRoll.DiceRollModel :=
  DiceRoll.mkDiceRollModel expression results modifiers total advantageMode None
    (now reading).

(** [DiceService.roll].  Subtotals enter the totals as numbers; totals are
    added and compared as numbers.  [mainRoll] is constructed before
    [altRoll] in every branch, so it takes the first reading of the clock. *)
Definition roll (expression : string) (advantageMode : AdvantageMode) (g : Rng)
  : completion DiceRoll.DiceRollModel * Rng :=
  match DiceParser.parse expression with
  | Throw e => (Throw e, g)
  | Return parsed =>
      if negb (isValid parsed) then
        let errorMessages := Js.join "; " (map message (validationErrors parsed)) in
        (Throw (AppValidationError errorMessages), g)
      else
        match advantageMode with
        | NONE =>
            let (results, g') := rollAll (diceGroups parsed) g in
            let total :=
              Js.add
                (Js.reduceAdd (fun result => Js.ofInteger (subtotal result)) results)
                (Js.reduceAdd (fun m => m) (modifiers parsed)) in
            (Return (newDiceRollModel expression results (modifiers parsed) total
                       advantageMode 0%nat), g')
        | _ =>
            match diceGroups parsed with
            | [diceGroup] =>
                let '((primary, alternate), g') := rollWithAdvantage diceGroup g in
                let primaryTotal :=
                  Js.add (Js.ofInteger (subtotal primary))
                         (Js.reduceAdd (fun m => m) (modifiers parsed)) in
                let alternateTotal :=
                  Js.add (Js.ofInteger (subtotal alternate))
                         (Js.reduceAdd (fun m => m) (modifiers parsed)) in
                let mk rs t reading :=
                  newDiceRollModel expression [rs] (modifiers parsed) t advantageMode
                    reading in
                let (mainRoll, altRoll) :=
                  match advantageMode with
                  | ADVANTAGE =>
                      if Js.geb primaryTotal alternateTotal
                      then (mk primary primaryTotal 0%nat, mk alternate alternateTotal 1%nat)
                      else (mk alternate alternateTotal 0%nat, mk primary primaryTotal 1%nat)
                  | _ =>
                      if Js.leb primaryTotal alternateTotal
                      then (mk primary primaryTotal 0%nat, mk alternate alternateTotal 1%nat)
                      else (mk alternate alternateTotal 0%nat, mk primary primaryTotal 1%nat)
                  end in
                (Return (DiceRoll.setAlternateRoll mainRoll altRoll), g')
            | _ =>
                (Throw (AppValidationError
                    "Advantage/disadvantage only supports single dice group (e.g., 1d20)"), g)
            end
        end
  end.

End Rolling.

Arguments rollLoop {Rng} randomInt n sides rolls g.
Arguments rollDiceGroup {Rng} randomInt diceGroup g.
Arguments rollWithAdvantage {Rng} randomInt diceGroup g.
Arguments rollAll {Rng} randomInt groups g.
Arguments roll {Rng} randomInt now expression advantageMode g.

(** A scripted generator for examples: the state is the list of raw draws
    still to come; [randomInt min max] maps the next one into [[min, max)]
    and repeats [min] once the script is used up. *)
Definition scriptedInt (lo hi : Z) (g : list Z) : Z * list Z :=
  match g with
  | [] => (lo, [])
  | x :: g' => (lo + x mod (hi - lo), g')
  end.

(** A clock for examples: successive readings one millisecond apart. *)
Definition sampleClock (k : nat) : string :=
  match k with
  | O => "2026-02-06T12:34:56.789Z"
  | _ => "2026-02-06T12:34:56.790Z"
  end.

(** ** The matches of an input, as a list *)

Module Tokens.
Import Js DicePattern DiceParser.

(** Every match the loop of [parse] would see if it ran to the end of the
    input: the successive results of [exec]. *)
Equations? tokens (input : string) : list RegExpMatch
  by wf (String.length input) lt :=
  tokens input with inspect (exec input) := {
    | exist _ None _ => []
    | exist _ (Some (m, rest)) Hexec => m :: tokens rest }.
Proof. eapply exec_shorter; eassumption. Qed.

(** The loop body run over a list of matches, stopping at the first throw. *)
Fixpoint runBody (ms : list RegExpMatch) (st : Locals) : completion Locals :=
  match ms with
  | [] => Return st
  | m :: ms' =>
      match loopBody m st with
      | Throw e => Throw e
      | Return st' => runBody ms' st'
      end
  end.

(** The string the loop scans: [expression.trim().toLowerCase()]. *)
Definition trimmedOf (expression : string) : string := toLowerCase (trim expression).

(** The integer a run of digits spells. *)
Definition decimalValue (s : string) : Z := digitsValue 0 s.

(** The count and sides a match spells when it is a dice-group token. *)
Definition diceOf (m : RegExpMatch) : option (Z * Z) :=
  match g_count m, g_sides m with
  | Some (String c cs), Some (String d ds) =>
      Some (decimalValue (String c cs), decimalValue (String d ds))
  | _, _ => None
  end.

(** A dice-group token over the resource limits. *)
Definition exceedsLimit (m : RegExpMatch) : Prop :=
  exists c s, diceOf m = Some (c, s) /\ (c > MAX_DICE \/ s > MAX_SIDES).

End Tokens.

(** ** Vocabulary of the statements *)

(** Two results of [parse] that agree on everything but [original]. *)
Definition sameStructure (a b : completion DiceExpressionModel) : Prop :=
  match a, b with
  | Return x, Return y =>
      diceGroups x = diceGroups y /\ modifiers x = modifiers y /\
      isValid x = isValid y /\ validationErrors x = validationErrors y
  | Throw e, Throw e' => e = e'
  | _, _ => False
  end.

Fixpoint allWhiteSpace (s : string) : bool :=
  match s with
  | EmptyString => true
  | String c s' => Js.isWhiteSpace c && allWhiteSpace s'
  end.

Fixpoint allDigits (s : string) : bool :=
  match s with
  | EmptyString => true
  | String c s' => Js.isDigit c && allDigits s'
  end.

Definition startsWithDigit (s : string) : bool :=
  match s with
  | EmptyString => false
  | String c _ => Js.isDigit c
  end.

(** The two token shapes, as whole strings: digits, [d], digits; or a sign
    and digits. *)
Definition diceShape (t : string) : Prop :=
  exists c cs x d ds,
    t = String c cs ++ String x (String d ds) /\
    allDigits (String c cs) = true /\ DicePattern.isD x = true /\
    allDigits (String d ds) = true.

Definition modifierShape (t : string) : Prop :=
  exists x d ds,
    t = String x (String d ds) /\ DicePattern.isSign x = true /\
    allDigits (String d ds) = true.

Definition containsToken (s : string) : Prop :=
  exists pre t post, s = pre ++ t ++ post /\ (diceShape t \/ modifierShape t).

(** The bounds the parser enforces on a dice group. *)
Definition withinLimits (g : DiceGroup) : Prop :=
  1 <= count g <= 1000 /\ 1 <= sides g <= 10000.

(** The bounds of the data-model invariant as the design document words it. *)
Definition withinDocumentedLimits (g : DiceGroup) : Prop :=
  1 <= count g <= 1000 /\ 2 <= sides g <= 10000.

Definition sumZ (l : list Z) : Z := fold_right Z.add 0 l.

(** The invariant of a roll record: its modifiers are integers and its total
    is the integer sum of its subtotals and its modifiers. *)
Definition totalInvariant (r : DiceRoll.DiceRollModel) : Prop :=
  exists ms : list Z,
    DiceRoll.modifiers r = map Js.Num ms /\
    DiceRoll.total r =
    Js.Num (sumZ (map subtotal (DiceRoll.results r)) + sumZ ms).

(** A record whose arithmetic stays among the integers a double holds
    exactly: its modifiers are integers, and the magnitudes of its subtotals
    and modifiers add up to less than 2^53. *)
Definition safeRecord (r : DiceRoll.DiceRollModel) : Prop :=
  exists ms : list Z,
    DiceRoll.modifiers r = map Js.Num ms /\
    sumZ (map Z.abs (map subtotal (DiceRoll.results r))) + sumZ (map Z.abs ms) < 2 ^ 53.

(** Whether the first-rolled side is the one selected. *)
Definition firstSelected (mode : AdvantageMode) (totalA totalB : Js.number) : bool :=
  match mode with
  | ADVANTAGE => Js.geb totalA totalB
  | _ => Js.leb totalA totalB
  end.

(** The error recorded when the loop collected no dice group. *)
Definition noDiceGroupError : ValidationError :=
  mkValidationError "expression"
    "Expression must contain at least one dice group (e.g., 1d6)".

Import Js DicePattern DiceParser Tokens.

(** A match as [exec] builds it. *)
Definition wellShaped (m : RegExpMatch) : Prop :=
  (exists c cs d ds,
     m = mkMatch (Some (String c cs)) (Some (String d ds)) None /\
     allDigits (String c cs) = true /\ allDigits (String d ds) = true) \/
  (exists x d ds,
     m = mkMatch None None (Some (String x (String d ds))) /\
     isSign x = true /\ allDigits (String d ds) = true).

(** *** Unfolding the two recursions along [exec] *)

Lemma scan_unfold_at (s : string) (st : Locals) (o : option (RegExpMatch * string)) :
  exec s = o ->
  scan s st =
  match o with
  | None => Return st
  | Some (m, rest) =>
      match loopBody m st with
      | Throw e => Throw e
      | Return st' => scan rest st'
      end
  end.
Proof.
  intros Ho. rewrite scan_equation_1.
  generalize (inspect (exec s)). intros [o' H].
  assert (E : o' = o) by congruence. clear Ho. destruct E.
  destruct o' as [[m rest]|]; simp scan; [|reflexivity].
  destruct (loopBody m st); reflexivity.
Qed.

Lemma scan_unfold (s : string) (st : Locals) :
  scan s st =
  match exec s with
  | None => Return st
  | Some (m, rest) =>
      match loopBody m st with
      | Throw e => Throw e
      | Return st' => scan rest st'
      end
  end.
Proof. apply scan_unfold_at. reflexivity. Qed.

Lemma tokens_unfold_at (s : string) (o : option (RegExpMatch * string)) :
  exec s = o ->
  tokens s =
  match o with
  | None => []
  | Some (m, rest) => m :: tokens rest
  end.
Proof.
  intros Ho. rewrite tokens_equation_1.
  generalize (inspect (exec s)). intros [o' H].
  assert (E : o' = o) by congruence. clear Ho. destruct E.
  destruct o' as [[m rest]|]; simp tokens; reflexivity.
Qed.

Lemma tokens_unfold (s : string) :
  tokens s =
  match exec s with
  | None => []
  | Some (m, rest) => m :: tokens rest
  end.
Proof. apply tokens_unfold_at. reflexivity. Qed.

(** Induction on the input along the cursor of the regular expression. *)
Lemma cursor_ind (P : string -> Prop) :
  (forall s, exec s = None -> P s) ->
  (forall s m rest, exec s = Some (m, rest) -> P rest -> P s) ->
  forall s, P s.
Proof.
  intros Hnone Hsome s.
  remember (String.length s) as n eqn:Hn.
  revert s Hn. induction n as [n IH] using lt_wf_ind. intros s Hn.
  destruct (exec s) as [[m rest]|] eqn:E.
  - apply (Hsome s m rest E).
    apply (IH (String.length rest)); [|reflexivity].
    subst n. eapply exec_shorter; eassumption.
  - apply Hnone; assumption.
Qed.

(** The loop of [parse] is the loop body folded over the matches. *)
Lemma scan_tokens (s : string) (st : Locals) : scan s st = runBody (tokens s) st.
Proof.
  revert st. induction s as [s E | s m rest E IH] using cursor_ind; intros st;
    rewrite scan_unfold, tokens_unfold, E; simpl.
  - reflexivity.
  - destruct (loopBody m st); [apply IH | reflexivity].
Qed.

Lemma parse_tokens (expression : string) :
  parse expression =
  match trimmedOf expression with
  | EmptyString =>
      Return (createInvalid expression
                [mkValidationError "expression" "Expression cannot be empty"])
  | String _ _ =>
      match runBody (tokens (trimmedOf expression)) initialLocals with
      | Throw e => Throw e
      | Return st =>
          if negb (l_hasValidTokens st) then
            Return (createInvalid expression
                      [mkValidationError "expression" "Invalid dice notation format"])
          else
            let validationErrors :=
              match l_diceGroups st with
              | [] => (l_validationErrors st ++
                       [mkValidationError "expression"
                          "Expression must contain at least one dice group (e.g., 1d6)"])%list
              | _ => l_validationErrors st
              end in
            match validationErrors with
            | [] => Return (mkDiceExpressionModel expression (l_diceGroups st)
                              (l_modifiers st) true [])
            | _ => Return (createInvalid expression validationErrors)
            end
      end
  end.
Proof.
  unfold parse, trimmedOf.
  destruct (toLowerCase (trim expression)) as [|c t] eqn:E; [reflexivity|].
  rewrite scan_tokens. reflexivity.
Qed.

(** *** The shape of what [exec] delivers *)

Lemma spanDigits_allDigits (s : string) : allDigits (fst (spanDigits s)) = true.
Proof.
  induction s as [|c s IH]; simpl; [reflexivity|].
  destruct (isDigit c) eqn:E; [|reflexivity].
  destruct (spanDigits s) as [ds r]. simpl in *. rewrite E, IH. reflexivity.
Qed.

(** A match is a dice-group token (two non-empty runs of digits) or a modifier
    token (a sign and a non-empty run of digits): [parseInt] only ever sees
    strings of these forms. *)
Lemma exec_shapes (s : string) (m : RegExpMatch) (rest : string) :
  exec s = Some (m, rest) ->
  (exists c cs d ds,
     m = mkMatch (Some (String c cs)) (Some (String d ds)) None /\
     allDigits (String c cs) = true /\ allDigits (String d ds) = true) \/
  (exists x d ds,
     m = mkMatch None None (Some (String x (String d ds))) /\
     isSign x = true /\ allDigits (String d ds) = true).
Proof.
  assert (Hhere : forall u, matchHere u = Some (m, rest) ->
    (exists c cs d ds,
       m = mkMatch (Some (String c cs)) (Some (String d ds)) None /\
       allDigits (String c cs) = true /\ allDigits (String d ds) = true) \/
    (exists x d ds,
       m = mkMatch None None (Some (String x (String d ds))) /\
       isSign x = true /\ allDigits (String d ds) = true)).
  { intros u. unfold matchHere, matchDice, matchModifier.
    pose proof (spanDigits_allDigits u) as H1.
    destruct (spanDigits u) as [[|c cs] [|x afterD]]; simpl in H1.
    1, 2, 3:
      destruct u as [|y u']; [discriminate|];
      destruct (isSign y) eqn:Ey; [|discriminate];
      pose proof (spanDigits_allDigits u') as H2;
      destruct (spanDigits u') as [[|d ds] r]; [discriminate|];
      intros E; inversion E; subst; right; exists y, d, ds; auto.
    destruct (isD x) eqn:Ex.
    - pose proof (spanDigits_allDigits afterD) as H2.
      destruct (spanDigits afterD) as [[|d ds] r].
      + destruct u as [|y u']; [discriminate|].
        destruct (isSign y) eqn:Ey; [|discriminate].
        pose proof (spanDigits_allDigits u') as H3.
        destruct (spanDigits u') as [[|d' ds'] r']; [discriminate|].
        intros E; inversion E; subst. right. exists y, d', ds'. auto.
      + intros E; inversion E; subst. left. exists c, cs, d, ds. auto.
    - destruct u as [|y u']; [discriminate|].
      destruct (isSign y) eqn:Ey; [|discriminate].
      pose proof (spanDigits_allDigits u') as H3.
      destruct (spanDigits u') as [[|d' ds'] r']; [discriminate|].
      intros E; inversion E; subst. right. exists y, d', ds'. auto. }
  induction s as [|c s IH]; cbn [exec].
  - destruct (matchHere "") as [r|] eqn:E; [|discriminate].
    intros H; inversion H; subst. apply (Hhere _ E).
  - destruct (matchHere (String c s)) as [r|] eqn:E.
    + intros H; inversion H; subst. apply (Hhere _ E).
    + exact IH.
Qed.

Lemma tokens_wellShaped (s : string) : Forall wellShaped (tokens s).
Proof.
  induction s as [s E | s m rest E IH] using cursor_ind;
    rewrite (tokens_unfold_at _ _ E).
  - constructor.
  - constructor; [exact (exec_shapes _ _ _ E) | exact IH].
Qed.

(** *** Numbers *)

Lemma roundMagnitude_small (a : Z) : a < 2 ^ 53 -> roundMagnitude a = Some a.
Proof. intros H. unfold roundMagnitude. apply Z.ltb_lt in H. rewrite H. reflexivity. Qed.

Lemma roundMagnitude_large (a : Z) :
  2 ^ 53 <= a -> match roundMagnitude a with Some v => 2 ^ 53 <= v | None => True end.
Proof.
  intros H. unfold roundMagnitude.
  destruct (a <? 2 ^ 53) eqn:E; [apply Z.ltb_lt in E; lia|].
  cbv zeta.
  assert (Hlog : 53 <= Z.log2 a) by (apply Z.log2_le_pow2; lia).
  set (e := Z.log2 a - 52).
  assert (He : 1 <= e) by (unfold e; lia).
  assert (Hpow : 0 < 2 ^ e) by (apply Z.pow_pos_nonneg; lia).
  assert (Hq : 2 ^ 52 <= a / 2 ^ e).
  { apply Z.div_le_lower_bound; [exact Hpow|].
    rewrite <- Z.pow_add_r by lia. replace (e + 52) with (Z.log2 a) by (unfold e; lia).
    apply Z.log2_spec. lia. }
  set (q := a / 2 ^ e) in *.
  match goal with |- context [if ?c then q + 1 else q] =>
    set (q' := if c then q + 1 else q);
    assert (Hq' : 2 ^ 52 <= q') by (unfold q'; destruct c; lia) end.
  destruct (q' * 2 ^ e <? 2 ^ 1024); [|exact I].
  assert (2 ^ 1 <= 2 ^ e) by (apply Z.pow_le_mono_r; lia).
  change (2 ^ 53) with (2 ^ 52 * 2 ^ 1). apply Z.mul_le_mono_nonneg; lia.
Qed.

(** Integers below 2^53 in magnitude are numbers as they stand. *)
Lemma roundToDouble_small (z : Z) : Z.abs z < 2 ^ 53 -> roundToDouble z = Num z.
Proof.
  intros H. unfold roundToDouble. rewrite (roundMagnitude_small _ H).
  destruct (z <? 0) eqn:E; f_equal; lia.
Qed.

(** A number that is not negative and at least 2^53 stays at least 2^53. *)
Lemma roundToDouble_large (z : Z) :
  2 ^ 53 <= z ->
  roundToDouble z = Infinity \/ exists v, roundToDouble z = Num v /\ 2 ^ 53 <= v.
Proof.
  intros H. unfold roundToDouble.
  assert (Hpos : 0 < 2 ^ 53) by reflexivity.
  pose proof (roundMagnitude_large (Z.abs z) ltac:(lia)) as Hl.
  replace (z <? 0) with false by (symmetry; apply Z.ltb_ge; lia).
  destruct (roundMagnitude (Z.abs z)) as [v|]; [right; eauto | left; reflexivity].
Qed.

(** Comparing the number of a natural integer with a small constant is
    comparing the integer. *)
Lemma roundToDouble_compare (z k : Z) :
  0 <= z -> 0 <= k < 2 ^ 53 ->
  gtb (roundToDouble z) (Num k) = (k <? z) /\
  leb (roundToDouble z) (Num k) = (z <=? k).
Proof.
  intros Hz Hk. destruct (Z.lt_ge_cases z (2 ^ 53)) as [Hs|Hl].
  - rewrite roundToDouble_small by lia. split; reflexivity.
  - assert (Hkz : (k <? z) = true) by (apply Z.ltb_lt; lia).
    assert (Hzk : (z <=? k) = false) by (apply Z.leb_gt; lia).
    rewrite Hkz, Hzk.
    destruct (roundToDouble_large z Hl) as [-> | (v & -> & Hv)]; [split; reflexivity|].
    unfold gtb, ltb, leb. split; [apply Z.ltb_lt | apply Z.leb_gt]; lia.
Qed.

Lemma spanDigits_whole (s : string) :
  allDigits s = true -> spanDigits s = (s, EmptyString).
Proof.
  induction s as [|c s IH]; simpl; [reflexivity|].
  intros H. apply andb_prop in H. destruct H as [Hc Hs].
  rewrite Hc, (IH Hs). reflexivity.
Qed.

Lemma decimalValue_nonneg (s : string) : 0 <= decimalValue s.
Proof.
  unfold decimalValue.
  assert (H : forall acc0, 0 <= acc0 -> 0 <= digitsValue acc0 s).
  { induction s as [|c s IH]; intros acc0 Hacc; cbn [digitsValue]; [exact Hacc|].
    destruct (isDigit c) eqn:E; [|exact Hacc].
    apply IH. unfold isDigit in E. apply andb_prop in E. destruct E as [E _].
    apply N.leb_le in E. unfold digitValue. lia. }
  apply H. lia.
Qed.

(** On a run of digits [parseInt] is the number of the integer it spells. *)
Lemma parseInt_digits (c : ascii) (cs : string) :
  allDigits (String c cs) = true ->
  parseInt (String c cs) = roundToDouble (decimalValue (String c cs)).
Proof.
  intros H. simpl in H. apply andb_prop in H. destruct H as [Hc Hcs].
  unfold parseInt, decimalValue.
  destruct c as [[] [] [] [] [] [] [] []]; try discriminate Hc;
    cbn [trimStart isWhiteSpace N_of_ascii N.leb N.eqb andb orb spanDigits isDigit];
    simpl; rewrite (spanDigits_whole _ Hcs); reflexivity.
Qed.

Lemma parseInt_digits_compare (c : ascii) (cs : string) (k : Z) :
  allDigits (String c cs) = true -> 0 <= k < 2 ^ 53 ->
  gtb (parseInt (String c cs)) (Num k) = (k <? decimalValue (String c cs)) /\
  leb (parseInt (String c cs)) (Num k) = (decimalValue (String c cs) <=? k).
Proof.
  intros H Hk. rewrite (parseInt_digits _ _ H).
  apply roundToDouble_compare; [apply decimalValue_nonneg | exact Hk].
Qed.

Lemma small_constants :
  0 <= 0 < 2 ^ 53 /\ 0 <= MAX_DICE < 2 ^ 53 /\ 0 <= MAX_SIDES < 2 ^ 53.
Proof. repeat split; (apply Z.leb_le || apply Z.ltb_lt); reflexivity. Qed.

(** *** What one turn of the loop does *)

#[local] Opaque parseInt numberToString toString String.append.

(** On a match of [exec] the loop body throws only for a dice-group token over
    a limit. *)
Lemma loopBody_throw (m : RegExpMatch) (st : Locals) (e : AppError) :
  wellShaped m -> loopBody m st = Throw e ->
  exists c s, diceOf m = Some (c, s) /\
    ((c > MAX_DICE /\ e = ResourceLimitError "Dice count exceeds maximum of 1000") \/
     (c <= MAX_DICE /\ s > MAX_SIDES /\
      e = ResourceLimitError "Die sides exceed maximum of 10000")).
Proof.
  intros [(c & cs & d & ds & -> & Hc & Hd) | (x & d & ds & -> & Hx & Hd)].
  - unfold loopBody, diceOf. cbn [g_count g_sides g_modifier truthy andb].
    destruct (parseInt_digits_compare c cs MAX_DICE Hc (proj1 (proj2 small_constants))) as (Ec & _).
    destruct (parseInt_digits_compare d ds MAX_SIDES Hd (proj2 (proj2 small_constants))) as (Es & _).
    rewrite Ec, Es.
    destruct (MAX_DICE <? decimalValue (String c cs)) eqn:E1.
    + intros H; inversion H; subst. eexists _, _. split; [reflexivity|].
      left. split; [apply Z.ltb_lt in E1; lia | reflexivity].
    + destruct (MAX_SIDES <? decimalValue (String d ds)) eqn:E2; [|discriminate].
      intros H; inversion H; subst. eexists _, _. split; [reflexivity|].
      right. apply Z.ltb_ge in E1. apply Z.ltb_lt in E2.
      split; [lia|]. split; [lia | reflexivity].
  - unfold loopBody. cbn [g_count g_sides g_modifier truthy andb]. discriminate.
Qed.

(** Whatever the match, what the loop body throws is the resource-limit
    error with one of its two messages. *)
Lemma loopBody_throw_message (m : RegExpMatch) (st : Locals) (e : AppError) :
  loopBody m st = Throw e ->
  e = ResourceLimitError "Dice count exceeds maximum of 1000" \/
  e = ResourceLimitError "Die sides exceed maximum of 10000".
Proof.
  unfold loopBody.
  destruct (truthy (g_count m) && truthy (g_sides m)).
  - destruct (gtb _ (Num MAX_DICE)); [intros H; inversion H; auto|].
    destruct (gtb _ (Num MAX_SIDES)); [intros H; inversion H; auto | discriminate].
  - destruct (truthy (g_modifier m)); discriminate.
Qed.

(** A dice-group token over a limit makes the loop body throw, whatever the
    locals hold. *)
Lemma loopBody_exceeds (m : RegExpMatch) (st : Locals) :
  wellShaped m -> exceedsLimit m ->
  exists e, loopBody m st = Throw e /\ forall st', loopBody m st' = Throw e.
Proof.
  intros Hshape (c0 & s0 & Hd0 & Hlim).
  destruct Hshape as [(c & cs & d & ds & -> & Hc & Hd) | (x & d & ds & -> & Hx & Hd)];
    [|discriminate].
  unfold diceOf in Hd0. cbn [g_count g_sides] in Hd0. inversion Hd0; subst; clear Hd0.
  unfold loopBody. cbn [g_count g_sides g_modifier truthy andb].
  destruct (parseInt_digits_compare c cs MAX_DICE Hc (proj1 (proj2 small_constants))) as (Ec & _).
  destruct (parseInt_digits_compare d ds MAX_SIDES Hd (proj2 (proj2 small_constants))) as (Es & _).
  rewrite Ec, Es.
  destruct (MAX_DICE <? decimalValue (String c cs)) eqn:E1.
  - eexists; split; [reflexivity|]. intros st'. reflexivity.
  - destruct (MAX_SIDES <? decimalValue (String d ds)) eqn:E2.
    + eexists; split; [reflexivity|]. intros st'. reflexivity.
    + exfalso. apply Z.ltb_ge in E1, E2. destruct Hlim; lia.
Qed.

Lemma loopBody_return (m : RegExpMatch) (st st' : Locals) :
  loopBody m st = Return st' ->
  l_hasValidTokens st' = true /\
  (Forall withinLimits (l_diceGroups st) -> Forall withinLimits (l_diceGroups st')) /\
  (Forall (fun e => field e = "count" \/ field e = "sides") (l_validationErrors st) ->
   Forall (fun e => field e = "count" \/ field e = "sides") (l_validationErrors st')).
Proof.
  unfold loopBody.
  destruct (truthy (g_count m) && truthy (g_sides m)).
  - set (cv := parseInt _). set (sv := parseInt _).
    destruct (gtb cv (Num MAX_DICE)) eqn:Ec; [discriminate|].
    destruct (gtb sv (Num MAX_SIDES)) eqn:Es; [discriminate|].
    assert (Hpush : gtb cv (Num 0) && gtb sv (Num 0) = true ->
                    withinLimits (mkDiceGroup (integerOf cv) (integerOf sv))).
    { intros Epos. apply andb_prop in Epos. destruct Epos as [Hc Hs].
      unfold withinLimits. cbn [count sides].
      destruct cv as [zc| | |]; try discriminate; destruct sv as [zs| | |]; try discriminate.
      unfold gtb, ltb, MAX_DICE, MAX_SIDES in *. cbn [integerOf].
      apply Z.ltb_lt in Hc, Hs. apply Z.ltb_ge in Ec, Es. lia. }
    destruct (gtb cv (Num 0) && gtb sv (Num 0));
      destruct (leb cv (Num 0)); destruct (leb sv (Num 0));
      intros H; inversion H; subst; clear H;
      cbn [l_hasValidTokens l_diceGroups l_validationErrors l_modifiers];
      (split; [reflexivity|]); split; intros Hf;
      repeat (apply Forall_app; split); auto;
      constructor; auto; constructor.
  - destruct (truthy (g_modifier m)); intros H; inversion H; subst; simpl; auto.
Qed.

(** *** The loop as a whole *)

Lemma runBody_return (ms : list RegExpMatch) (st st' : Locals) :
  runBody ms st = Return st' ->
  (ms <> [] -> l_hasValidTokens st' = true) /\
  (ms = [] -> st' = st) /\
  (Forall withinLimits (l_diceGroups st) -> Forall withinLimits (l_diceGroups st')) /\
  (Forall (fun e => field e = "count" \/ field e = "sides") (l_validationErrors st) ->
   Forall (fun e => field e = "count" \/ field e = "sides") (l_validationErrors st')).
Proof.
  revert st. induction ms as [|m ms IH]; intros st; simpl.
  - intros H; inversion H; subst. repeat split; auto.
  - destruct (loopBody m st) as [st1|e] eqn:E; [|discriminate].
    intros H. apply loopBody_return in E. destruct E as (Hv & Hg & He).
    destruct (IH _ H) as (IHv & IHn & IHg & IHe).
    repeat split; auto; try discriminate.
    intros _. destruct ms as [|m' ms'].
    + rewrite (IHn eq_refl). exact Hv.
    + apply IHv. discriminate.
Qed.

Lemma runBody_throw (ms : list RegExpMatch) (st : Locals) (e : AppError) :
  runBody ms st = Throw e ->
  exists msg, e = ResourceLimitError msg /\
    (msg = "Dice count exceeds maximum of 1000" \/
     msg = "Die sides exceed maximum of 10000").
Proof.
  revert st. induction ms as [|m ms IH]; intros st; simpl; [discriminate|].
  destruct (loopBody m st) as [st1|e1] eqn:E.
  - apply IH.
  - intros H; inversion H; subst.
    apply loopBody_throw_message in E. destruct E as [-> | ->]; eauto.
Qed.

(** Running into a token over a limit: the loop throws, and what it throws
    is fixed by the matches up to and including the first such token. *)
Lemma runBody_exceeds (pre post : list RegExpMatch) (m : RegExpMatch) (st : Locals) :
  wellShaped m -> exceedsLimit m ->
  exists e, runBody (pre ++ m :: post) st = Throw e /\
            forall post', runBody (pre ++ m :: post') st = Throw e.
Proof.
  intros Hs Hm. revert st. induction pre as [|p pre IH]; intros st; simpl.
  - destruct (loopBody_exceeds m st Hs Hm) as (e & He & _). rewrite He.
    exists e. split; [reflexivity|]. intros post'. reflexivity.
  - destruct (loopBody p st) as [st1|e1] eqn:E.
    + apply IH.
    + exists e1. split; [reflexivity|]. intros post'. reflexivity.
Qed.

Lemma tokens_empty : tokens EmptyString = [].
Proof. rewrite tokens_unfold. reflexivity. Qed.

(** A valid result of [parse] carries the groups the loop collected, and the
    loop ran to the end of its matches without recording an error. *)
Lemma parse_valid_inv (expression : string) (model : DiceExpressionModel) :
  parse expression = Return model -> isValid model = true ->
  exists st,
    runBody (tokens (trimmedOf expression)) initialLocals = Return st /\
    diceGroups model = l_diceGroups st /\ modifiers model = l_modifiers st /\
    l_validationErrors st = [] /\ l_diceGroups st <> [].
Proof.
  rewrite parse_tokens.
  destruct (trimmedOf expression) as [|c t].
  - intros H; inversion H; subst. discriminate.
  - destruct (runBody (tokens (String c t)) initialLocals) as [st|e]; [|discriminate].
    destruct (negb (l_hasValidTokens st)).
    + intros H; inversion H; subst. discriminate.
    + cbv zeta. destruct (l_diceGroups st) as [|g gs] eqn:Eg.
      * destruct (l_validationErrors st); simpl;
          intros H; inversion H; subst; discriminate.
      * destruct (l_validationErrors st) as [|e es] eqn:Ee;
          intros H; inversion H; subst; try discriminate.
        intros _. exists st. simpl. rewrite Eg. repeat split; auto. discriminate.
Qed.

(** ** Claims about the parser *)

(** C8, as the design document states it, fails: [5d1] is accepted, and its
    one group has a single side. *)
Lemma documented_limits_counterexample :
  ~ (forall expression model,
       parse expression = Return model -> isValid model = true ->
       Forall withinDocumentedLimits (diceGroups model)).
Proof.
  intros H.
  specialize (H "5d1" (mkDiceExpressionModel "5d1" [mkDiceGroup 5 1] [] true [])
                eq_refl eq_refl).
  inversion H as [|g gs Hg _]; subst.
  unfold withinDocumentedLimits in Hg. simpl in Hg. lia.
Qed.

(** C8 (amended): every dice group of an expression the parser marks valid
    has [1 <= count <= 1000] and [1 <= sides <= 10000]; a one-sided die is
    accepted. *)
Theorem valid_groups_within_limits (expression : string) (model : DiceExpressionModel) :
  parse expression = Return model -> isValid model = true ->
  Forall withinLimits (diceGroups model).
Proof.
  intros Hp Hv.
  destruct (parse_valid_inv _ _ Hp Hv) as (st & Hrun & Hg & _).
  rewrite Hg. apply runBody_return in Hrun.
  destruct Hrun as (_ & _ & Hlim & _). apply Hlim. constructor.
Qed.

Lemma valid_groups_within_limits_witness :
  Forall withinLimits [mkDiceGroup 5 1; mkDiceGroup 1000 10000].
Proof.
  apply (valid_groups_within_limits "5d1 + 1000D10000"
           (mkDiceExpressionModel "5d1 + 1000D10000"
              [mkDiceGroup 5 1; mkDiceGroup 1000 10000] [] true []));
    reflexivity.
Defined.

(** An oversized token among the matches decides the outcome of [parse]. *)
Lemma parse_oversized (pre : list RegExpMatch) (m : RegExpMatch) :
  wellShaped m -> exceedsLimit m ->
  exists msg,
    (msg = "Dice count exceeds maximum of 1000" \/
     msg = "Die sides exceed maximum of 10000") /\
    forall expression post,
      tokens (trimmedOf expression) = (pre ++ m :: post)%list ->
      parse expression = Throw (ResourceLimitError msg).
Proof.
  intros Hs Hm.
  destruct (runBody_exceeds pre [] m initialLocals Hs Hm) as (e & He & Hany).
  destruct (runBody_throw _ _ _ He) as (msg & -> & Hmsg).
  exists msg. split; [exact Hmsg|].
  intros x l Hx. rewrite parse_tokens.
  destruct (trimmedOf x) as [|c t] eqn:Ex.
  - rewrite tokens_empty in Hx. destruct pre; discriminate.
  - rewrite Hx, Hany. reflexivity.
Qed.

(** When the matches of the input include a dice-group token with a count
    above 1000 or sides above 10000, [parse] throws a [ResourceLimitError]
    (neither a returned invalid expression nor a validation error), with one
    of its two messages; and the outcome is the same for every input whose
    matches agree up to and including that token, whatever comes after it. *)
Lemma resource_limit_short_circuit
    (expression : string) (pre post : list RegExpMatch) (m : RegExpMatch) :
  tokens (trimmedOf expression) = (pre ++ m :: post)%list ->
  exceedsLimit m ->
  (exists msg,
     parse expression = Throw (ResourceLimitError msg) /\
     (msg = "Dice count exceeds maximum of 1000" \/
      msg = "Die sides exceed maximum of 10000")) /\
  (forall expression' post',
     tokens (trimmedOf expression') = (pre ++ m :: post')%list ->
     parse expression' = parse expression).
Proof.
  intros Htok Hm.
  assert (Hs : wellShaped m).
  { pose proof (tokens_wellShaped (trimmedOf expression)) as Hall.
    rewrite Htok in Hall. apply Forall_app in Hall. destruct Hall as [_ Hall].
    inversion Hall; assumption. }
  destruct (parse_oversized pre m Hs Hm) as (msg & Hmsg & Hparse).
  split.
  - exists msg. split; [exact (Hparse _ _ Htok) | exact Hmsg].
  - intros x l Hx. rewrite (Hparse _ _ Hx), (Hparse _ _ Htok). reflexivity.
Qed.

Lemma resource_limit_short_circuit_witness :
  (exists msg,
     parse "2d6+3 1001D4 zz" = Throw (ResourceLimitError msg) /\
     (msg = "Dice count exceeds maximum of 1000" \/
      msg = "Die sides exceed maximum of 10000")) /\
  (forall expression' post',
     tokens (trimmedOf expression') =
       ([mkMatch (Some "2") (Some "6") None; mkMatch None None (Some "+3")] ++
        mkMatch (Some "1001") (Some "4") None :: post')%list ->
     parse expression' = parse "2d6+3 1001D4 zz").
Proof.
  apply (resource_limit_short_circuit "2d6+3 1001D4 zz"
           [mkMatch (Some "2") (Some "6") None; mkMatch None None (Some "+3")]
           [] (mkMatch (Some "1001") (Some "4") None)).
  - vm_compute. reflexivity.
  - exists 1001, 4. split; [reflexivity | left; reflexivity].
Defined.

(** *** Trimming and lower-casing *)

#[local] Transparent parseInt numberToString toString String.append.

Lemma isWhiteSpace_lowerChar (c : ascii) : isWhiteSpace (lowerChar c) = isWhiteSpace c.
Proof. destruct c as [[] [] [] [] [] [] [] []]; reflexivity. Qed.

Lemma toLowerCase_trimStart (s : string) :
  toLowerCase (trimStart s) = trimStart (toLowerCase s).
Proof.
  induction s as [|c s IH]; simpl; [reflexivity|].
  rewrite isWhiteSpace_lowerChar. destruct (isWhiteSpace c); [exact IH | reflexivity].
Qed.

Lemma toLowerCase_trimEnd (s : string) :
  toLowerCase (trimEnd s) = trimEnd (toLowerCase s).
Proof.
  induction s as [|c s IH]; simpl; [reflexivity|].
  rewrite <- IH, isWhiteSpace_lowerChar.
  destruct (trimEnd s); simpl; [destruct (isWhiteSpace c)|]; reflexivity.
Qed.

Lemma toLowerCase_trim (s : string) : toLowerCase (trim s) = trim (toLowerCase s).
Proof. unfold trim. rewrite toLowerCase_trimEnd, toLowerCase_trimStart. reflexivity. Qed.

Lemma trimStart_allWhiteSpace (w : string) :
  allWhiteSpace w = true -> trimStart w = EmptyString.
Proof.
  induction w as [|c w IH]; simpl; [reflexivity|].
  intros H. apply andb_prop in H. destruct H as [Hc Hw]. rewrite Hc. auto.
Qed.

Lemma trimStart_app (s t : string) :
  trimStart (s ++ t) =
  match trimStart s with
  | EmptyString => trimStart t
  | String c u => String c u ++ t
  end.
Proof.
  induction s as [|c s IH]; simpl.
  - destruct (trimStart t); reflexivity.
  - destruct (isWhiteSpace c); [exact IH | reflexivity].
Qed.

Lemma trimEnd_app_allWhiteSpace (s w : string) :
  allWhiteSpace w = true -> trimEnd (s ++ w) = trimEnd s.
Proof.
  intros Hw. induction s as [|c s IH]; simpl.
  - induction w as [|d w IHw]; simpl; [reflexivity|].
    simpl in Hw. apply andb_prop in Hw. destruct Hw as [Hd Hw].
    rewrite (IHw Hw), Hd. reflexivity.
  - rewrite IH. reflexivity.
Qed.

(** Surrounding white space does not survive [trim]. *)
Lemma trim_surrounded (w1 s w2 : string) :
  allWhiteSpace w1 = true -> allWhiteSpace w2 = true ->
  trim (w1 ++ s ++ w2) = trim s.
Proof.
  intros H1 H2. unfold trim.
  rewrite trimStart_app, (trimStart_allWhiteSpace _ H1).
  rewrite trimStart_app. destruct (trimStart s) as [|c u].
  - rewrite (trimStart_allWhiteSpace _ H2). reflexivity.
  - apply trimEnd_app_allWhiteSpace. exact H2.
Qed.

(** [parse] reads its argument only through the trimmed, lower-cased string
    (and copies it into [original]). *)
Lemma parse_same_trimmed (a b : string) :
  trimmedOf a = trimmedOf b -> sameStructure (parse a) (parse b).
Proof.
  intros H. rewrite !parse_tokens, H.
  destruct (trimmedOf b) as [|c t]; [simpl; auto|].
  destruct (runBody (tokens (String c t)) initialLocals) as [st|e]; [|reflexivity].
  destruct (negb (l_hasValidTokens st)); [simpl; auto|].
  cbv zeta.
  match goal with |- context [match ?l with [] => Return _ | _ :: _ => _ end] =>
    destruct l end; simpl; auto.
Qed.

(** C9: [parse "2d6"], [parse "2D6"] and [parse " 2d6 "] agree on dice
    groups, modifiers, validity and errors (one group 2d6, no modifier) and
    differ only in [original]; in general the result of [parse], up to
    [original], does not change when letters change case or when white space
    is put around the input. *)
Theorem parse_case_and_padding_invariant :
  (parse "2d6" = Return (mkDiceExpressionModel "2d6" [mkDiceGroup 2 6] [] true []) /\
   parse "2D6" = Return (mkDiceExpressionModel "2D6" [mkDiceGroup 2 6] [] true []) /\
   parse " 2d6 " = Return (mkDiceExpressionModel " 2d6 " [mkDiceGroup 2 6] [] true [])) /\
  (forall a b : string,
     toLowerCase a = toLowerCase b -> sameStructure (parse a) (parse b)) /\
  (forall w1 s w2 : string,
     allWhiteSpace w1 = true -> allWhiteSpace w2 = true ->
     sameStructure (parse (w1 ++ s ++ w2)) (parse s)).
Proof.
  split; [repeat split; vm_compute; reflexivity|]. split.
  - intros a b H. apply parse_same_trimmed. unfold trimmedOf.
    rewrite !toLowerCase_trim, H. reflexivity.
  - intros w1 s w2 H1 H2. apply parse_same_trimmed. unfold trimmedOf.
    rewrite (trim_surrounded _ _ _ H1 H2). reflexivity.
Qed.

Lemma parse_case_and_padding_invariant_witness :
  sameStructure (parse "1D20+5") (parse "1d20+5") /\
  sameStructure (parse ("  " ++ "1d20+5" ++ " ")) (parse "1d20+5").
Proof.
  destruct parse_case_and_padding_invariant as (_ & Hcase & Hpad).
  split.
  - apply Hcase. reflexivity.
  - apply Hpad; reflexivity.
Defined.

(** *** Token shapes survive normalisation and are found by [exec] *)

Lemma append_assoc (a b c : string) : (a ++ b) ++ c = a ++ (b ++ c).
Proof. induction a as [|x a IH]; simpl; [reflexivity | rewrite IH; reflexivity]. Qed.

Lemma toLowerCase_app (a b : string) :
  toLowerCase (a ++ b) = toLowerCase a ++ toLowerCase b.
Proof. induction a as [|c a IH]; simpl; [reflexivity | rewrite IH; reflexivity]. Qed.

Lemma isDigit_facts (c : ascii) :
  isDigit c = true ->
  lowerChar c = c /\ isWhiteSpace c = false /\ isD c = false /\ isSign c = false.
Proof. destruct c as [[] [] [] [] [] [] [] []]; simpl; try discriminate; auto. Qed.

Lemma isD_facts (c : ascii) :
  isD c = true ->
  isD (lowerChar c) = true /\ isWhiteSpace c = false /\ isDigit c = false.
Proof. destruct c as [[] [] [] [] [] [] [] []]; simpl; try discriminate; auto. Qed.

Lemma isSign_facts (c : ascii) :
  isSign c = true ->
  lowerChar c = c /\ isWhiteSpace c = false /\ isDigit c = false.
Proof. destruct c as [[] [] [] [] [] [] [] []]; simpl; try discriminate; auto. Qed.

Lemma allDigits_lower (s : string) : allDigits s = true -> toLowerCase s = s.
Proof.
  induction s as [|c s IH]; simpl; [reflexivity|].
  intros H. apply andb_prop in H. destruct H as [Hc Hs].
  destruct (isDigit_facts c Hc) as (-> & _). rewrite (IH Hs). reflexivity.
Qed.

Lemma trimEnd_cons (c : ascii) (s : string) :
  isWhiteSpace c = false -> trimEnd (String c s) = String c (trimEnd s).
Proof. intros H. simpl. destruct (trimEnd s); [rewrite H|]; reflexivity. Qed.

Lemma allDigits_solid (s : string) :
  allDigits s = true -> forall t, trimEnd (s ++ t) = s ++ trimEnd t.
Proof.
  induction s as [|c s IH]; simpl; [reflexivity|].
  intros H t. apply andb_prop in H. destruct H as [Hc Hs].
  rewrite (IH Hs). destruct (isDigit_facts c Hc) as (_ & Hw & _).
  destruct (s ++ trimEnd t); [rewrite Hw|]; reflexivity.
Qed.

Lemma spanDigits_app (ds r : string) :
  allDigits ds = true ->
  spanDigits (ds ++ r) = (ds ++ fst (spanDigits r), snd (spanDigits r)).
Proof.
  induction ds as [|c ds IH]; simpl.
  - destruct (spanDigits r); reflexivity.
  - intros H. apply andb_prop in H. destruct H as [Hc Hs].
    rewrite Hc, (IH Hs). reflexivity.
Qed.

Lemma diceShape_lower (t : string) : diceShape t -> diceShape (toLowerCase t).
Proof.
  intros (c & cs & x & d & ds & -> & Hc & Hx & Hd).
  exists c, cs, (lowerChar x), d, ds.
  rewrite toLowerCase_app. simpl toLowerCase at 2.
  change (String (lowerChar d) (toLowerCase ds)) with (toLowerCase (String d ds)).
  rewrite (allDigits_lower _ Hc), (allDigits_lower _ Hd).
  destruct (isD_facts x Hx) as (Hx' & _). auto.
Qed.

Lemma modifierShape_lower (t : string) : modifierShape t -> modifierShape (toLowerCase t).
Proof.
  intros (x & d & ds & -> & Hx & Hd).
  exists x, d, ds. simpl toLowerCase at 1.
  change (String (lowerChar d) (toLowerCase ds)) with (toLowerCase (String d ds)).
  rewrite (allDigits_lower _ Hd). destruct (isSign_facts x Hx) as (-> & _). auto.
Qed.

(** A token starts with a character that is not white space, and [trimEnd]
    stops in front of it. *)
Lemma token_solid (t : string) :
  diceShape t \/ modifierShape t ->
  (exists c u, t = String c u /\ isWhiteSpace c = false) /\
  (forall post, exists post', trimEnd (t ++ post) = t ++ post').
Proof.
  intros [(c & cs & x & d & ds & -> & Hc & Hx & Hd) | (x & d & ds & -> & Hx & Hd)].
  - split.
    + simpl in Hc. apply andb_prop in Hc. destruct Hc as [Hc _].
      destruct (isDigit_facts c Hc) as (_ & Hw & _). simpl. eauto.
    + intros post. exists (trimEnd post).
      destruct (isD_facts x Hx) as (_ & Hw & _).
      assert (Htail : trimEnd (String x (String d ds ++ post)) =
                      String x (String d ds ++ trimEnd post)).
      { rewrite (trimEnd_cons _ _ Hw), (allDigits_solid _ Hd). reflexivity. }
      rewrite !append_assoc, (allDigits_solid _ Hc).
      change (String x (String d ds) ++ post) with (String x (String d ds ++ post)).
      rewrite Htail. reflexivity.
  - split.
    + destruct (isSign_facts x Hx) as (_ & Hw & _). eauto.
    + intros post.
      change (String x (String d ds) ++ post) with (String x (String d ds ++ post)).
      destruct (isSign_facts x Hx) as (_ & Hw & _).
      rewrite (trimEnd_cons _ _ Hw), (allDigits_solid _ Hd).
      exists (trimEnd post). reflexivity.
Qed.

Lemma trimEnd_app_kept (pre u : string) (c : ascii) (v : string) :
  trimEnd u = String c v -> trimEnd (pre ++ u) = pre ++ trimEnd u.
Proof.
  intros Hu. induction pre as [|x pre IH]; simpl; [reflexivity|].
  rewrite IH, Hu. destruct (pre ++ String c v) eqn:E; [|reflexivity].
  destruct pre; discriminate.
Qed.

Lemma containsToken_trim (s : string) : containsToken s -> containsToken (trim s).
Proof.
  intros (pre & t & post & -> & Ht).
  destruct (token_solid t Ht) as ((c & u & Et & Hc) & Hend).
  destruct (Hend post) as (post' & Hpost).
  exists (trimStart pre), t, post'. split; [|exact Ht].
  unfold trim.
  assert (Hstart : trimStart (pre ++ t ++ post) = trimStart pre ++ t ++ post).
  { rewrite trimStart_app. destruct (trimStart pre); [|reflexivity].
    rewrite Et. simpl. rewrite Hc. reflexivity. }
  rewrite Hstart.
  assert (Hne : exists c' v', trimEnd (t ++ post) = String c' v').
  { rewrite Hpost, Et. simpl. eauto. }
  destruct Hne as (c' & v' & Hne).
  rewrite (trimEnd_app_kept _ _ _ _ Hne), Hpost. reflexivity.
Qed.

Lemma containsToken_lower (s : string) : containsToken s -> containsToken (toLowerCase s).
Proof.
  intros (pre & t & post & -> & Ht).
  exists (toLowerCase pre), (toLowerCase t), (toLowerCase post).
  rewrite !toLowerCase_app. split; [reflexivity|].
  destruct Ht; [left; apply diceShape_lower | right; apply modifierShape_lower]; assumption.
Qed.

Lemma spanDigits_nonempty (d : ascii) (ds r : string) :
  allDigits (String d ds) = true ->
  exists ds' r', spanDigits (String d ds ++ r) = (String d ds', r').
Proof.
  intros H. rewrite (spanDigits_app _ r H). simpl. eauto.
Qed.

Lemma matchHere_token (t post : string) :
  diceShape t \/ modifierShape t -> matchHere (t ++ post) <> None.
Proof.
  intros [(c & cs & x & d & ds & -> & Hc & Hx & Hd) | (x & d & ds & -> & Hx & Hd)].
  - unfold matchHere, matchDice.
    rewrite append_assoc, (spanDigits_app _ _ Hc).
    change (String x (String d ds) ++ post) with (String x (String d ds ++ post)).
    destruct (isD_facts x Hx) as (_ & _ & Hnd).
    cbn [spanDigits]. rewrite Hnd. cbn [fst snd].
    replace (String c cs ++ "") with (String c cs)
      by (clear; induction (String c cs); simpl; congruence).
    rewrite Hx.
    destruct (spanDigits_nonempty d ds post Hd) as (ds' & r' & ->). discriminate.
  - unfold matchHere, matchDice.
    change (String x (String d ds) ++ post) with (String x (String d ds ++ post)).
    destruct (isSign_facts x Hx) as (_ & _ & Hnd).
    cbn [spanDigits]. rewrite Hnd.
    unfold matchModifier. rewrite Hx.
    destruct (spanDigits_nonempty d ds post Hd) as (ds' & r' & ->). discriminate.
Qed.

Lemma exec_matchHere (s : string) (r : RegExpMatch * string) :
  matchHere s = Some r -> exec s = Some r.
Proof. intros H. destruct s; cbn [exec]; rewrite H; reflexivity. Qed.

(** [exec] is a complete search: it finds a match wherever a token occurs. *)
Lemma exec_finds (s : string) : containsToken s -> exec s <> None.
Proof.
  intros (pre & t & post & -> & Ht).
  induction pre as [|c pre IH].
  - pose proof (matchHere_token t post Ht) as H.
    change ("" ++ t ++ post) with (t ++ post).
    destruct (matchHere (t ++ post)) as [r|] eqn:E; [|congruence].
    rewrite (exec_matchHere _ _ E). discriminate.
  - change (String c pre ++ t ++ post) with (String c (pre ++ t ++ post)).
    cbn [exec]. destruct (matchHere _); [discriminate | exact IH].
Qed.

Lemma tokens_nonempty (expression : string) :
  containsToken expression -> tokens (trimmedOf expression) <> [].
Proof.
  intros H. apply containsToken_trim, containsToken_lower, exec_finds in H.
  fold (trimmedOf expression) in H. rewrite tokens_unfold.
  destruct (exec (trimmedOf expression)) as [[m rest]|]; [discriminate | congruence].
Qed.

Lemma tokens_nonempty_string (s : string) : tokens s <> [] -> s <> EmptyString.
Proof. intros H ->. apply H, tokens_empty. Qed.

Lemma spanDigits_stop (r : string) :
  startsWithDigit r = false -> spanDigits r = (EmptyString, r).
Proof. destruct r as [|c r]; simpl; [reflexivity|]. intros ->. reflexivity. Qed.

Lemma append_empty_r (s : string) : s ++ "" = s.
Proof. induction s as [|c s IH]; simpl; [reflexivity | rewrite IH; reflexivity]. Qed.

(** A dice-group token at the cursor is the next match, sides read up to the
    first character that is not a digit. *)
Lemma tokens_leading_dice (c d x : ascii) (cs ds rest : string) :
  allDigits (String c cs) = true -> allDigits (String d ds) = true ->
  isD x = true -> startsWithDigit rest = false ->
  tokens (String c cs ++ String x (String d ds) ++ rest) =
  mkMatch (Some (String c cs)) (Some (String d ds)) None :: tokens rest.
Proof.
  intros Hc Hd Hx Hr.
  assert (E : matchHere (String c cs ++ String x (String d ds) ++ rest) =
              Some (mkMatch (Some (String c cs)) (Some (String d ds)) None, rest)).
  { unfold matchHere, matchDice.
    rewrite (spanDigits_app _ _ Hc).
    destruct (isD_facts x Hx) as (_ & _ & Hnd).
    change (String x (String d ds) ++ rest) with (String x (String d ds ++ rest)).
    cbn [spanDigits]. rewrite Hnd. cbn [fst snd].
    rewrite append_empty_r, Hx.
    rewrite (spanDigits_app _ _ Hd), (spanDigits_stop _ Hr). cbn [fst snd].
    rewrite append_empty_r. reflexivity. }
  rewrite (tokens_unfold_at _ _ (exec_matchHere _ _ E)). reflexivity.
Qed.

Lemma isDigit_lowerChar (c : ascii) : isDigit (lowerChar c) = isDigit c.
Proof. destruct c as [[] [] [] [] [] [] [] []]; reflexivity. Qed.

Lemma startsWithDigit_normalised (r : string) :
  startsWithDigit r = false -> startsWithDigit (toLowerCase (trimEnd r)) = false.
Proof.
  destruct r as [|c r]; simpl; [reflexivity|]. intros Hc.
  destruct (trimEnd r); [destruct (isWhiteSpace c)|]; simpl;
    try reflexivity; rewrite isDigit_lowerChar; exact Hc.
Qed.

(** The string the scanner sees when the input opens, after white space,
    with a dice-group token. *)
Lemma trimmedOf_leading_dice (w : string) (c d x : ascii) (cs ds rest : string) :
  allWhiteSpace w = true ->
  allDigits (String c cs) = true -> allDigits (String d ds) = true -> isD x = true ->
  trimmedOf (w ++ String c cs ++ String x (String d ds) ++ rest) =
  String c cs ++ String (lowerChar x) (String d ds) ++ toLowerCase (trimEnd rest).
Proof.
  intros Hw Hc Hd Hx. unfold trimmedOf, trim.
  rewrite trimStart_app, (trimStart_allWhiteSpace _ Hw).
  assert (Hcw : isWhiteSpace c = false).
  { simpl in Hc. apply andb_prop in Hc. destruct Hc as [Hc _].
    apply (isDigit_facts c Hc). }
  change (String c cs ++ String x (String d ds) ++ rest)
    with (String c (cs ++ String x (String d ds) ++ rest)).
  cbn [trimStart]. rewrite Hcw.
  change (String c (cs ++ String x (String d ds) ++ rest))
    with (String c cs ++ String x (String d ds ++ rest)).
  destruct (isD_facts x Hx) as (_ & Hxw & _).
  rewrite (allDigits_solid _ Hc), (trimEnd_cons _ _ Hxw), (allDigits_solid _ Hd).
  rewrite toLowerCase_app.
  change (toLowerCase (String x (String d ds ++ trimEnd rest)))
    with (String (lowerChar x) (toLowerCase (String d ds ++ trimEnd rest))).
  rewrite toLowerCase_app, (allDigits_lower _ Hc), (allDigits_lower _ Hd).
  reflexivity.
Qed.

(** An input that opens with an oversized dice group makes [parse] throw the
    resource-limit error, whatever follows the group. *)
Lemma oversized_leading_group (w : string) (c d x : ascii) (cs ds rest : string) :
  allWhiteSpace w = true ->
  allDigits (String c cs) = true -> allDigits (String d ds) = true -> isD x = true ->
  startsWithDigit rest = false ->
  decimalValue (String c cs) > MAX_DICE \/ decimalValue (String d ds) > MAX_SIDES ->
  exists msg,
    parse (w ++ String c cs ++ String x (String d ds) ++ rest) =
    Throw (ResourceLimitError msg).
Proof.
  intros Hw Hc Hd Hx Hr Hlim.
  assert (Hs : wellShaped (mkMatch (Some (String c cs)) (Some (String d ds)) None)).
  { left. exists c, cs, d, ds. auto. }
  assert (Hm : exceedsLimit (mkMatch (Some (String c cs)) (Some (String d ds)) None)).
  { eexists _, _. split; [reflexivity | exact Hlim]. }
  destruct (parse_oversized [] _ Hs Hm) as (msg & _ & Hparse).
  exists msg. apply (Hparse _ (tokens (toLowerCase (trimEnd rest)))).
  rewrite (trimmedOf_leading_dice _ _ _ _ _ _ _ Hw Hc Hd Hx).
  destruct (isD_facts x Hx) as (Hx' & _).
  apply (tokens_leading_dice _ _ _ _ _ _ Hc Hd Hx').
  apply startsWithDigit_normalised. exact Hr.
Qed.

(** ** C10 *)

(** C10: when some substring of the input has the shape of a dice-group or
    modifier token, [parse] returns rather than reporting a format error, the
    result (up to [original]) is determined by the matches alone, so the
    characters outside the matches change nothing, and every recorded error is
    about a token's count or sides, or is the missing-dice-group error;
    [parse "2d6xyz"] is valid with the one group 2d6 and no modifier. *)
Theorem unmatched_characters_ignored :
  (forall expression : string,
     containsToken expression ->
     tokens (trimmedOf expression) <> [] /\
     (forall expression',
        tokens (trimmedOf expression') = tokens (trimmedOf expression) ->
        sameStructure (parse expression') (parse expression)) /\
     (forall model,
        parse expression = Return model ->
        Forall (fun e => field e = "count" \/ field e = "sides" \/ e = noDiceGroupError)
               (validationErrors model))) /\
  parse "2d6xyz" =
    Return (mkDiceExpressionModel "2d6xyz" [mkDiceGroup 2 6] [] true []).
Proof.
  split; [|vm_compute; reflexivity].
  intros expression Hc. pose proof (tokens_nonempty _ Hc) as Hne.
  split; [exact Hne|]. split.
  - intros x Hx.
    assert (Hx' : tokens (trimmedOf x) <> []) by (rewrite Hx; exact Hne).
    apply tokens_nonempty_string in Hx'. pose proof (tokens_nonempty_string _ Hne) as He.
    rewrite !parse_tokens, Hx.
    destruct (trimmedOf x) as [|cx tx]; [congruence|].
    destruct (trimmedOf expression) as [|ce te]; [congruence|].
    destruct (runBody (tokens (String ce te)) initialLocals) as [st|e]; [|reflexivity].
    destruct (negb (l_hasValidTokens st)); [simpl; auto|].
    cbv zeta.
    match goal with |- context [match ?l with [] => Return _ | _ :: _ => _ end] =>
      destruct l end; simpl; auto.
  - intros model. rewrite parse_tokens.
    pose proof (tokens_nonempty_string _ Hne) as He.
    destruct (trimmedOf expression) as [|ce te]; [congruence|].
    destruct (runBody (tokens (String ce te)) initialLocals) as [st|e] eqn:Erun;
      [|discriminate].
    apply runBody_return in Erun. destruct Erun as (Hv & _ & _ & Herr).
    rewrite (Hv Hne). cbn [negb]. cbv zeta.
    specialize (Herr (Forall_nil _)).
    assert (Hweak : Forall (fun e => field e = "count" \/ field e = "sides" \/
                                     e = noDiceGroupError) (l_validationErrors st)).
    { eapply Forall_impl; [|exact Herr]. intros a [H|H]; auto. }
    destruct (l_diceGroups st) as [|g gs].
    + destruct (l_validationErrors st ++ [_])%list eqn:E;
        intros H; inversion H; subst; simpl; [constructor|].
      rewrite <- E. apply Forall_app. split; [exact Hweak|].
      constructor; [right; right; reflexivity | constructor].
    + destruct (l_validationErrors st) eqn:E;
        intros H; inversion H; subst; simpl; [constructor | exact Hweak].
Qed.

Lemma unmatched_characters_ignored_witness :
  tokens (trimmedOf "2d6xyz") <> [] /\
  sameStructure (parse "??2D6 abc") (parse "2d6xyz").
Proof.
  destruct unmatched_characters_ignored as (H & _).
  destruct (H "2d6xyz") as (Hne & Hsame & _).
  - exists "", "2d6", "xyz". split; [reflexivity|].
    left. exists "2"%char, "", "d"%char, "6"%char, "".
    repeat split; reflexivity.
  - split; [exact Hne|]. apply Hsame. vm_compute. reflexivity.
Defined.

(** C2 (evaluation): the spaced and the compact form of the same expression
    parse differently: ["2d6 + 1d4"] has the two groups 2d6 and 1d4 and no
    modifier, ["2d6+1d4"] has the group 2d6 and the modifier 1. *)
Theorem spaced_and_compact_forms_differ :
  parse "2d6 + 1d4" =
    Return (mkDiceExpressionModel "2d6 + 1d4" [mkDiceGroup 2 6; mkDiceGroup 1 4] []
              true []) /\
  parse "2d6+1d4" =
    Return (mkDiceExpressionModel "2d6+1d4" [mkDiceGroup 2 6] [Num 1] true []).
Proof. split; vm_compute; reflexivity. Qed.

(** The parse of the compound example, as the scanner delivers it. *)
Lemma parse_compound_example :
  parse "2d6+1d4+3" =
  Return (mkDiceExpressionModel "2d6+1d4+3" [mkDiceGroup 2 6] [Num 1; Num 3] true []).
Proof. vm_compute. reflexivity. Qed.

(** C7 (evaluation): ["1d6+5000d6"] contains the dice group 5000d6, whose
    count is above 1000, and [parse] does not throw: it returns a valid
    expression with the single group 1d6 and the modifier 5000.  At the [+]
    the scanner matches [+5000] as a modifier and skips [d6]. *)
Theorem oversized_group_after_sign :
  parse "1d6+5000d6" =
    Return (mkDiceExpressionModel "1d6+5000d6" [mkDiceGroup 1 6] [Num 5000] true []) /\
  tokens (trimmedOf "1d6+5000d6") =
    [mkMatch (Some "1") (Some "6") None; mkMatch None None (Some "+5000")].
Proof. split; vm_compute; reflexivity. Qed.

(** ** The roller and the service *)

Lemma fold_sum_from {A : Type} (f : A -> Z) (xs : list A) (a : Z) :
  fold_left (fun sum x => sum + f x) xs a = a + sumZ (map f xs).
Proof.
  revert a. induction xs as [|x xs IH]; intros a; simpl; [lia|].
  rewrite IH. lia.
Qed.

Lemma reduceSum_sumZ {A : Type} (f : A -> Z) (xs : list A) :
  reduceSum f xs = sumZ (map f xs).
Proof. unfold reduceSum. rewrite fold_sum_from. lia. Qed.

Lemma reduceSum_id (xs : list Z) : reduceSum (fun x => x) xs = sumZ xs.
Proof. rewrite reduceSum_sumZ, map_id. reflexivity. Qed.

(** *** Sums of numbers that stay exact *)

Lemma sumZ_abs_nonneg (l : list Z) : 0 <= sumZ (map Z.abs l).
Proof. induction l as [|x l IH]; simpl; lia. Qed.

Lemma sumZ_abs_bound (l : list Z) : Z.abs (sumZ l) <= sumZ (map Z.abs l).
Proof. induction l as [|x l IH]; simpl; lia. Qed.

(** Adding two integers whose magnitudes add up to less than 2^53 is exact. *)
Lemma add_exact (x y : Z) :
  Z.abs x + Z.abs y < 2 ^ 53 -> add (Num x) (Num y) = Num (x + y).
Proof. intros H. cbn [add]. apply roundToDouble_small. lia. Qed.

Lemma fold_add_exact {A : Type} (f : A -> number) (v : A -> Z) (xs : list A) (a : Z) :
  (forall x, In x xs -> f x = Num (v x)) ->
  Z.abs a + sumZ (map Z.abs (map v xs)) < 2 ^ 53 ->
  fold_left (fun sum x => add sum (f x)) xs (Num a) = Num (a + sumZ (map v xs)).
Proof.
  revert a. induction xs as [|x xs IH]; intros a Hf Hb; cbn [fold_left map sumZ fold_right].
  - f_equal. lia.
  - cbn [map sumZ fold_right] in Hb. fold (sumZ (map Z.abs (map v xs))) in Hb.
    pose proof (sumZ_abs_nonneg (map v xs)) as Hn.
    rewrite (Hf x (or_introl eq_refl)), add_exact by lia.
    fold (sumZ (map v xs)).
    rewrite IH; [f_equal; lia | intros y Hy; apply Hf; right; exact Hy | lia].
Qed.

Lemma integerOf_Num (ms : list Z) : map integerOf (map Num ms) = ms.
Proof. induction ms as [|m ms IH]; simpl; [reflexivity | rewrite IH; reflexivity]. Qed.

Lemma reduceAdd_modifiers_exact (ms : list Z) :
  sumZ (map Z.abs ms) < 2 ^ 53 ->
  reduceAdd (fun m => m) (map Num ms) = Num (sumZ ms).
Proof.
  intros Hb. unfold reduceAdd.
  rewrite (fold_add_exact (fun m => m) integerOf).
  - rewrite integerOf_Num. reflexivity.
  - intros x Hx. apply in_map_iff in Hx. destruct Hx as (z & <- & _). reflexivity.
  - rewrite integerOf_Num. simpl. lia.
Qed.

(** Below 2^53 the sum of integers as numbers is their sum as integers. *)
Lemma reduceSum_as_numbers (xs : list Z) :
  sumZ (map Z.abs xs) < 2 ^ 53 ->
  reduceAdd ofInteger xs = Num (reduceSum (fun x => x) xs).
Proof.
  intros Hb. rewrite reduceSum_id. rewrite <- (map_id xs) at 2.
  unfold reduceAdd. rewrite (fold_add_exact ofInteger (fun x => x)).
  - reflexivity.
  - intros x Hx. apply roundToDouble_small.
    induction xs as [|y ys IH]; [destruct Hx|].
    cbn [map sumZ fold_right] in Hb. fold (sumZ (map Z.abs ys)) in Hb.
    pose proof (sumZ_abs_nonneg ys) as Hn.
    destruct Hx as [-> | Hx]; [lia | apply IH; [lia | exact Hx]].
  - rewrite map_id. simpl. lia.
Qed.

Lemma reduceAdd_subtotals_exact (rs : list RollResultModel) :
  sumZ (map Z.abs (map subtotal rs)) < 2 ^ 53 ->
  reduceAdd (fun result => ofInteger (subtotal result)) rs =
  Num (sumZ (map subtotal rs)).
Proof.
  intros Hb. unfold reduceAdd.
  rewrite (fold_add_exact (fun result => ofInteger (subtotal result)) subtotal).
  - reflexivity.
  - intros x Hx. apply roundToDouble_small.
    induction rs as [|r rs IH]; [destruct Hx|].
    cbn [map sumZ fold_right] in Hb. fold (sumZ (map Z.abs (map subtotal rs))) in Hb.
    pose proof (sumZ_abs_nonneg (map subtotal rs)) as Hn.
    destruct Hx as [-> | Hx]; [lia | apply IH; [lia | exact Hx]].
  - simpl. lia.
Qed.

(** The total of a plain roll, when the arithmetic stays exact. *)
Lemma total_exact (rs : list RollResultModel) (ms : list Z) :
  sumZ (map Z.abs (map subtotal rs)) + sumZ (map Z.abs ms) < 2 ^ 53 ->
  add (reduceAdd (fun result => ofInteger (subtotal result)) rs)
      (reduceAdd (fun m => m) (map Num ms)) =
  Num (sumZ (map subtotal rs) + sumZ ms).
Proof.
  intros Hb.
  pose proof (sumZ_abs_nonneg (map subtotal rs)) as Hr.
  pose proof (sumZ_abs_nonneg ms) as Hm.
  pose proof (sumZ_abs_bound (map subtotal rs)) as Hr'.
  pose proof (sumZ_abs_bound ms) as Hm'.
  rewrite reduceAdd_subtotals_exact, reduceAdd_modifiers_exact by lia.
  apply add_exact. lia.
Qed.

(** The total of one candidate of a roll with advantage, when the arithmetic
    stays exact. *)
Lemma candidate_total_exact (result : RollResultModel) (ms : list Z) :
  Z.abs (subtotal result) + sumZ (map Z.abs ms) < 2 ^ 53 ->
  add (ofInteger (subtotal result)) (reduceAdd (fun m => m) (map Num ms)) =
  Num (subtotal result + sumZ ms).
Proof.
  intros Hb.
  pose proof (sumZ_abs_nonneg ms) as Hm.
  pose proof (sumZ_abs_bound ms) as Hm'.
  unfold ofInteger. rewrite roundToDouble_small, reduceAdd_modifiers_exact by lia.
  apply add_exact. lia.
Qed.

Lemma map_Num_inj (xs ys : list Z) : map Num xs = map Num ys -> xs = ys.
Proof.
  revert ys. induction xs as [|x xs IH]; intros [|y ys] H; try discriminate;
    [reflexivity|].
  inversion H; subst. f_equal. apply IH. assumption.
Qed.

(** *** The order of numbers *)



Section RollingFacts.

Variable Rng : Type.
Variable randomInt : Z -> Z -> Rng -> Z * Rng.
Variable now : nat -> string.

(** The contract of [crypto.randomInt(min, max)]: for [min < max] and a range
    below 2^48, a value in [[min, max)]. *)
Hypothesis randomInt_range :
  forall (lo hi : Z) (g : Rng),
    lo < hi -> hi - lo < 2 ^ 48 -> lo <= fst (randomInt lo hi g) < hi.

Lemma rollLoop_spec (n : nat) (sides : Z) (acc : list Z) (g : Rng) :
  1 <= sides < 2 ^ 48 ->
  exists drawn,
    fst (rollLoop randomInt n sides acc g) = (acc ++ drawn)%list /\
    length drawn = n /\
    Forall (fun x => 1 <= x <= sides) drawn.
Proof.
  intros Hs. revert acc g. induction n as [|n IH]; intros acc g; simpl.
  - exists []. rewrite app_nil_r. auto.
  - pose proof (randomInt_range 1 (sides + 1) g ltac:(lia) ltac:(lia)) as Hr.
    destruct (randomInt 1 (sides + 1) g) as [x g1]. simpl in Hr.
    destruct (IH (acc ++ [x])%list g1) as (drawn & Hd & Hlen & Hall).
    exists (x :: drawn). rewrite Hd, <- app_assoc. simpl.
    repeat split; auto. constructor; [lia | exact Hall].
Qed.

(** C3: for a group with [count >= 1] and [sides >= 1] (and sides within what
    the random source accepts, as every group the parser lets through is),
    over a random source that honours its range, [rollDiceGroup] draws exactly
    [count] values, each in [[1, sides]], the subtotal is their sum, and the
    notation is the decimal count, a lower-case [d] and the decimal sides, a
    function of the group alone (so 2D6 comes back as 2d6); with one side
    every roll is 1. *)
Theorem rollDiceGroup_contract (group : DiceGroup) (g : Rng) :
  1 <= count group -> 1 <= sides group < 2 ^ 48 ->
  let r := fst (rollDiceGroup randomInt group g) in
  Z.of_nat (length (rolls r)) = count group /\
  Forall (fun x => 1 <= x <= sides group) (rolls r) /\
  subtotal r = sumZ (rolls r) /\
  notation r = numberToString (count group) ++ "d" ++ numberToString (sides group) /\
  (sides group = 1 -> Forall (fun x => x = 1) (rolls r)) /\
  (forall model, parse "2D6" = Return model ->
     map (fun dg => notation (fst (rollDiceGroup randomInt dg g))) (diceGroups model) = ["2d6"]).
Proof.
  intros Hc Hs. unfold rollDiceGroup.
  destruct (rollLoop_spec (Z.to_nat (count group)) (sides group) [] g Hs)
    as (drawn & Hd & Hlen & Hall).
  destruct (rollLoop randomInt (Z.to_nat (count group)) (sides group) [] g) as [rs g'].
  simpl in Hd. subst rs. cbn [fst rolls subtotal notation].
  repeat split.
  - rewrite Hlen. lia.
  - exact Hall.
  - apply reduceSum_id.
  - intros H1. eapply Forall_impl; [|exact Hall]. intros x Hx. simpl in Hx. lia.
  - intros model Hm.
    assert (E : parse "2D6" =
                Return (mkDiceExpressionModel "2D6" [mkDiceGroup 2 6] [] true []))
      by (vm_compute; reflexivity).
    rewrite E in Hm. inversion Hm; subst. cbn [diceGroups map].
    cbn [count sides].
    destruct (rollLoop randomInt (Z.to_nat 2) 6 [] g) as [rs2 g2]. reflexivity.
Qed.

(** *** What [roll] does, mode by mode *)

Lemma roll_parse_throw (expression : string) (mode : AdvantageMode) (g : Rng)
    (e : AppError) :
  parse expression = Throw e -> roll randomInt now expression mode g = (Throw e, g).
Proof. intros H. unfold roll. rewrite H. reflexivity. Qed.

Lemma roll_invalid (expression : string) (mode : AdvantageMode) (g : Rng)
    (parsed : DiceExpressionModel) :
  parse expression = Return parsed -> isValid parsed = false ->
  roll randomInt now expression mode g =
  (Throw (AppValidationError (join "; " (map message (validationErrors parsed)))), g).
Proof. intros H Hv. unfold roll. rewrite H, Hv. reflexivity. Qed.

Lemma roll_plain (expression : string) (g : Rng) (parsed : DiceExpressionModel) :
  parse expression = Return parsed -> isValid parsed = true ->
  roll randomInt now expression NONE g =
  (Return (DiceRoll.mkDiceRollModel expression
             (fst (rollAll randomInt (diceGroups parsed) g)) (modifiers parsed)
             (add (reduceAdd (fun result => ofInteger (subtotal result))
                     (fst (rollAll randomInt (diceGroups parsed) g)))
                  (reduceAdd (fun m => m) (modifiers parsed)))
             NONE None (now 0%nat)),
   snd (rollAll randomInt (diceGroups parsed) g)).
Proof.
  intros H Hv. unfold roll. rewrite H, Hv. cbn [negb].
  destruct (rollAll randomInt (diceGroups parsed) g) as [rs g'].
  reflexivity.
Qed.

Lemma roll_not_single (expression : string) (mode : AdvantageMode) (g : Rng)
    (parsed : DiceExpressionModel) :
  parse expression = Return parsed -> isValid parsed = true ->
  mode <> NONE -> length (diceGroups parsed) <> 1%nat ->
  roll randomInt now expression mode g =
  (Throw (AppValidationError
            "Advantage/disadvantage only supports single dice group (e.g., 1d20)"), g).
Proof.
  intros H Hv Hm Hl. unfold roll. rewrite H, Hv. cbn [negb].
  destruct mode; [congruence| |];
    destruct (diceGroups parsed) as [|dg [|dg' rest]]; simpl in Hl;
      try reflexivity; congruence.
Qed.

(** With a single group and a mode other than [NONE]: the two candidates, the
    one on top constructed first (first reading of the clock), the other
    second. *)
Lemma roll_single (expression : string) (mode : AdvantageMode) (g : Rng)
    (parsed : DiceExpressionModel) (group : DiceGroup) :
  parse expression = Return parsed -> isValid parsed = true ->
  mode <> NONE -> diceGroups parsed = [group] ->
  let first := fst (rollDiceGroup randomInt group g) in
  let g1 := snd (rollDiceGroup randomInt group g) in
  let second := fst (rollDiceGroup randomInt group g1) in
  let g2 := snd (rollDiceGroup randomInt group g1) in
  let bonus := reduceAdd (fun m => m) (modifiers parsed) in
  let totalA := add (ofInteger (subtotal first)) bonus in
  let totalB := add (ofInteger (subtotal second)) bonus in
  let record rs t alt reading :=
    DiceRoll.mkDiceRollModel expression [rs] (modifiers parsed) t mode alt
      (now reading) in
  roll randomInt now expression mode g =
  (Return (if firstSelected mode totalA totalB
           then record first totalA (Some (record second totalB None 1%nat)) 0%nat
           else record second totalB (Some (record first totalA None 1%nat)) 0%nat),
   g2).
Proof.
  intros H Hv Hm Hg. unfold roll. rewrite H, Hv, Hg. cbn [negb].
  unfold rollWithAdvantage.
  destruct (rollDiceGroup randomInt group g) as [p g1]. cbn [fst snd].
  destruct (rollDiceGroup randomInt group g1) as [a g2]. cbn [fst snd].
  unfold firstSelected.
  destruct mode; [congruence| |].
  - destruct (geb _ _); reflexivity.
  - destruct (leb _ _); reflexivity.
Qed.

(** C4 (amended): every record [roll] returns, in any mode, and the alternate
    record nested in it when there is one, has
    [total = sum of the results' subtotals + sum of the modifiers] as exact
    integers, provided the record's modifiers are integers and the magnitudes
    of its subtotals and modifiers add up to less than 2^53. *)
Theorem roll_total_invariant (expression : string) (mode : AdvantageMode)
    (g g' : Rng) (r : DiceRoll.DiceRollModel) :
  roll randomInt now expression mode g = (Return r, g') ->
  (safeRecord r -> totalInvariant r) /\
  (forall alt, DiceRoll.alternateRoll r = Some alt -> safeRecord alt -> totalInvariant alt).
Proof.
  assert (Hplain : forall rs mods t m alt ts,
            t = add (reduceAdd (fun result => ofInteger (subtotal result)) rs)
                    (reduceAdd (fun m => m) mods) ->
            safeRecord (DiceRoll.mkDiceRollModel expression rs mods t m alt ts) ->
            totalInvariant (DiceRoll.mkDiceRollModel expression rs mods t m alt ts)).
  { intros rs mods t m alt ts -> (ms & Hm & Hb).
    cbn [DiceRoll.modifiers DiceRoll.results] in Hm, Hb. subst mods.
    exists ms. cbn [DiceRoll.modifiers DiceRoll.results DiceRoll.total].
    split; [reflexivity | apply total_exact; exact Hb]. }
  assert (Hcand : forall p mods m alt ts,
            safeRecord (DiceRoll.mkDiceRollModel expression [p] mods
                          (add (ofInteger (subtotal p)) (reduceAdd (fun m => m) mods))
                          m alt ts) ->
            totalInvariant (DiceRoll.mkDiceRollModel expression [p] mods
                          (add (ofInteger (subtotal p)) (reduceAdd (fun m => m) mods))
                          m alt ts)).
  { intros p mods m alt ts (ms & Hm & Hb).
    cbn [DiceRoll.modifiers DiceRoll.results map sumZ fold_right] in Hm, Hb. subst mods.
    exists ms. cbn [DiceRoll.modifiers DiceRoll.results DiceRoll.total map sumZ fold_right].
    split; [reflexivity|].
    rewrite candidate_total_exact by lia. f_equal. lia. }
  destruct (parse expression) as [parsed|e] eqn:Hp;
    [|rewrite (roll_parse_throw _ _ _ _ Hp); discriminate].
  destruct (isValid parsed) eqn:Hv;
    [|rewrite (roll_invalid _ _ _ _ Hp Hv); discriminate].
  destruct mode.
  - rewrite (roll_plain _ _ _ Hp Hv). intros H; inversion H; subst.
    split; [apply Hplain; reflexivity | discriminate].
  - destruct (Nat.eq_dec (length (diceGroups parsed)) 1) as [Hl|Hl];
      [|rewrite (roll_not_single _ ADVANTAGE _ _ Hp Hv ltac:(discriminate) Hl);
        discriminate].
    destruct (diceGroups parsed) as [|group [|? ?]] eqn:Hg; try discriminate.
    rewrite (roll_single _ ADVANTAGE _ _ _ Hp Hv ltac:(discriminate) Hg).
    cbv zeta. destruct (firstSelected _ _ _); intros H; inversion H; subst;
      (split; [apply Hcand|]);
      intros alt Ha; inversion Ha; subst; apply Hcand.
  - destruct (Nat.eq_dec (length (diceGroups parsed)) 1) as [Hl|Hl];
      [|rewrite (roll_not_single _ DISADVANTAGE _ _ Hp Hv ltac:(discriminate) Hl);
        discriminate].
    destruct (diceGroups parsed) as [|group [|? ?]] eqn:Hg; try discriminate.
    rewrite (roll_single _ DISADVANTAGE _ _ _ Hp Hv ltac:(discriminate) Hg).
    cbv zeta. destruct (firstSelected _ _ _); intros H; inversion H; subst;
      (split; [apply Hcand|]);
      intros alt Ha; inversion Ha; subst; apply Hcand.
Qed.


(** [roll] throws a validation error in exactly two situations: the parser
    returned an invalid expression, whose messages are joined into the error;
    or a mode other than [NONE] met a number of dice groups other than one. *)
Lemma roll_validation_error_iff (expression : string) (mode : AdvantageMode)
    (g g' : Rng) (msg : string) :
  roll randomInt now expression mode g = (Throw (AppValidationError msg), g') <->
  g' = g /\
  exists parsed, parse expression = Return parsed /\
    ((isValid parsed = false /\
      msg = join "; " (map message (validationErrors parsed))) \/
     (isValid parsed = true /\ mode <> NONE /\ length (diceGroups parsed) <> 1%nat /\
      msg = "Advantage/disadvantage only supports single dice group (e.g., 1d20)")).
Proof.
  split.
  - destruct (parse expression) as [parsed|e] eqn:Hp.
    + destruct (isValid parsed) eqn:Hv.
      * destruct mode.
        -- rewrite (roll_plain _ _ _ Hp Hv). discriminate.
        -- destruct (Nat.eq_dec (length (diceGroups parsed)) 1) as [Hl|Hl].
           ++ destruct (diceGroups parsed) as [|group [|? ?]] eqn:Hg; try discriminate.
              rewrite (roll_single _ ADVANTAGE _ _ _ Hp Hv ltac:(discriminate) Hg).
              discriminate.
           ++ rewrite (roll_not_single _ ADVANTAGE _ _ Hp Hv ltac:(discriminate) Hl).
              intros H; inversion H; subst. split; [reflexivity|].
              exists parsed. split; [reflexivity|]. right.
              repeat split; auto. discriminate.
        -- destruct (Nat.eq_dec (length (diceGroups parsed)) 1) as [Hl|Hl].
           ++ destruct (diceGroups parsed) as [|group [|? ?]] eqn:Hg; try discriminate.
              rewrite (roll_single _ DISADVANTAGE _ _ _ Hp Hv ltac:(discriminate) Hg).
              discriminate.
           ++ rewrite (roll_not_single _ DISADVANTAGE _ _ Hp Hv ltac:(discriminate) Hl).
              intros H; inversion H; subst. split; [reflexivity|].
              exists parsed. split; [reflexivity|]. right.
              repeat split; auto. discriminate.
      * rewrite (roll_invalid _ _ _ _ Hp Hv). intros H; inversion H; subst.
        split; [reflexivity|]. exists parsed. split; [reflexivity|]. left. auto.
    + rewrite (roll_parse_throw _ _ _ _ Hp). intros H; inversion H; subst.
      rewrite parse_tokens in Hp.
      destruct (trimmedOf expression); [discriminate|].
      destruct (runBody _ _) as [st|e] eqn:Er.
      * destruct (negb (l_hasValidTokens st)); [discriminate|]. cbv zeta in Hp.
        destruct (l_diceGroups st); destruct (l_validationErrors st); discriminate.
      * inversion Hp; subst.
        apply runBody_throw in Er. destruct Er as (m & Em & _). discriminate.
  - intros (-> & parsed & Hp & [(Hv & ->) | (Hv & Hm & Hl & ->)]).
    + exact (roll_invalid _ _ _ _ Hp Hv).
    + exact (roll_not_single _ _ _ _ Hp Hv Hm Hl).
Qed.

(** C1 (evaluation): in plain mode [roll "2d6+1d4+3"] returns a record with
    the single result 2d6 and the modifiers 1 and 3: the scanner reads [+1] of
    [+1d4] as a modifier and drops [d4].  The total is that one subtotal
    plus 4. *)
Theorem compound_expression_plain_roll (g : Rng) :
  exists r g',
    roll randomInt now "2d6+1d4+3" NONE g = (Return r, g') /\
    map notation (DiceRoll.results r) = ["2d6"] /\
    length (DiceRoll.results r) = 1%nat /\
    DiceRoll.modifiers r = [Num 1; Num 3] /\
    DiceRoll.total r =
      add (reduceAdd (fun result => ofInteger (subtotal result)) (DiceRoll.results r))
          (Num 4) /\
    (safeRecord r ->
     DiceRoll.total r = Num (sumZ (map subtotal (DiceRoll.results r)) + 4)).
Proof.
  rewrite (roll_plain _ g _ parse_compound_example eq_refl).
  eexists _, _. split; [reflexivity|]. cbn [diceGroups modifiers DiceRoll.results
    DiceRoll.modifiers DiceRoll.total rollAll].
  unfold rollDiceGroup. cbn [count sides].
  destruct (rollLoop randomInt (Z.to_nat 2) 6 [] g) as [rs g1].
  cbn [fst map notation length].
  split; [reflexivity|]. split; [reflexivity|]. split; [reflexivity|].
  split; [reflexivity|].
  intros (ms & Hm & Hb). cbn [DiceRoll.modifiers DiceRoll.results] in Hm, Hb.
  change [Num 1; Num 3] with (map Num [1; 3]) in Hm. apply map_Num_inj in Hm. subst ms.
  change [Num 1; Num 3] with (map Num [1; 3]).
  rewrite total_exact by exact Hb. reflexivity.
Qed.

(** C6 (evaluation): with advantage, and with disadvantage,
    [roll "2d6+1d4+3"] returns a record for the single group 2d6 that carries
    an alternate, instead of throwing; the parser has delivered one dice
    group. *)
Theorem compound_expression_advantage_roll (g : Rng) :
  (exists r alt g',
     roll randomInt now "2d6+1d4+3" ADVANTAGE g = (Return r, g') /\
     map notation (DiceRoll.results r) = ["2d6"] /\
     DiceRoll.modifiers r = [Num 1; Num 3] /\
     DiceRoll.alternateRoll r = Some alt) /\
  (exists r alt g',
     roll randomInt now "2d6+1d4+3" DISADVANTAGE g = (Return r, g') /\
     map notation (DiceRoll.results r) = ["2d6"] /\
     DiceRoll.modifiers r = [Num 1; Num 3] /\
     DiceRoll.alternateRoll r = Some alt).
Proof.
  split.
  - rewrite (roll_single _ ADVANTAGE g _ (mkDiceGroup 2 6) parse_compound_example
               eq_refl ltac:(discriminate) eq_refl).
    cbv zeta. unfold rollDiceGroup. cbn [count sides].
    destruct (rollLoop randomInt (Z.to_nat 2) 6 [] g) as [rs g1]. cbn [fst snd].
    destruct (rollLoop randomInt (Z.to_nat 2) 6 [] g1) as [rs' g2]. cbn [fst snd].
    destruct (firstSelected _ _ _); eexists _, _, _;
      (split; [reflexivity|]);
      cbn [DiceRoll.results DiceRoll.modifiers DiceRoll.alternateRoll map notation
           modifiers]; repeat split.
  - rewrite (roll_single _ DISADVANTAGE g _ (mkDiceGroup 2 6) parse_compound_example
               eq_refl ltac:(discriminate) eq_refl).
    cbv zeta. unfold rollDiceGroup. cbn [count sides].
    destruct (rollLoop randomInt (Z.to_nat 2) 6 [] g) as [rs g1]. cbn [fst snd].
    destruct (rollLoop randomInt (Z.to_nat 2) 6 [] g1) as [rs' g2]. cbn [fst snd].
    destruct (firstSelected _ _ _); eexists _, _, _;
      (split; [reflexivity|]);
      cbn [DiceRoll.results DiceRoll.modifiers DiceRoll.alternateRoll map notation
           modifiers]; repeat split.
Qed.

End RollingFacts.

Lemma scriptedInt_range (lo hi : Z) (g : list Z) :
  lo < hi -> hi - lo < 2 ^ 48 -> lo <= fst (scriptedInt lo hi g) < hi.
Proof.
  intros H _. destruct g as [|x g]; simpl; [lia|].
  pose proof (Z.mod_pos_bound x (hi - lo) ltac:(lia)). lia.
Qed.

Lemma rollDiceGroup_contract_witness :
  fst (rollDiceGroup scriptedInt (mkDiceGroup 2 6) [3; 4]) =
    mkRollResultModel "2d6" [4; 5] 9 /\
  Forall (fun x => 1 <= x <= 6) [4; 5].
Proof.
  split; [reflexivity|].
  exact (proj1 (proj2
    (rollDiceGroup_contract (list Z) scriptedInt scriptedInt_range
       (mkDiceGroup 2 6) [3; 4] ltac:(simpl; lia) ltac:(simpl; lia)))).
Defined.

(** C4, as the design document states it, fails: the modifier of
    ["1d1+9007199254740993"] is read as the number 9007199254740992, the die
    shows 1, and the total is 9007199254740992, not 9007199254740993. *)
Lemma total_invariant_counterexample :
  ~ (forall (expression : string) (mode : AdvantageMode) (g g' : list Z)
            (r : DiceRoll.DiceRollModel),
       roll scriptedInt sampleClock expression mode g = (Return r, g') ->
       totalInvariant r).
Proof.
  intros H.
  assert (E : roll scriptedInt sampleClock "1d1+9007199254740993" NONE [] =
              (Return (DiceRoll.mkDiceRollModel "1d1+9007199254740993"
                         [mkRollResultModel "1d1" [1] 1] [Num 9007199254740992]
                         (Num 9007199254740992) NONE None (sampleClock 0%nat)), []))
    by (vm_compute; reflexivity).
  destruct (H _ _ _ _ _ E) as (ms & Hm & Ht).
  cbn [DiceRoll.modifiers DiceRoll.results DiceRoll.total map subtotal] in Hm, Ht.
  change [Num 9007199254740992] with (map Num [9007199254740992]) in Hm.
  apply map_Num_inj in Hm. subst ms.
  vm_compute in Ht. discriminate.
Qed.

Lemma roll_total_invariant_witness :
  totalInvariant
    (DiceRoll.mkDiceRollModel "1d20+3" [mkRollResultModel "1d20" [5] 5] [Num 3] (Num 8)
       DISADVANTAGE
       (Some (DiceRoll.mkDiceRollModel "1d20+3" [mkRollResultModel "1d20" [12] 12]
                [Num 3] (Num 15) DISADVANTAGE None (sampleClock 1%nat)))
       (sampleClock 0%nat)).
Proof.
  refine (proj1 (roll_total_invariant (list Z) scriptedInt sampleClock
                   "1d20+3" DISADVANTAGE [11; 4] [] _ eq_refl) _).
  exists [3]. split; [reflexivity | vm_compute; reflexivity].
Defined.




(** ** The worked examples of the design document *)

Example invalid_inputs :
  Forall (fun expression =>
            exists model, parse expression = Return model /\
                          isValid model = false /\ validationErrors model <> [])
         ["0d6"; "-2d6"; "2d0"; "2d-1"; "abc"; "2d"; ""; "   "; "+5"].
Proof.
  repeat (apply Forall_cons;
          [eexists; split; [vm_compute; reflexivity | split; [reflexivity | discriminate]] |]).
  apply Forall_nil.
Qed.

Example over_the_limits :
  parse "10000d10000" = Throw (ResourceLimitError "Dice count exceeds maximum of 1000") /\
  parse "1000d10001" = Throw (ResourceLimitError "Die sides exceed maximum of 10000") /\
  parse "0d10001" = Throw (ResourceLimitError "Die sides exceed maximum of 10000") /\
  parse "1000d10000" =
    Return (mkDiceExpressionModel "1000d10000" [mkDiceGroup 1000 10000] [] true []).
Proof. repeat split; vm_compute; reflexivity. Qed.

Example advantage_1d20 :
  exists main alt,
    fst (roll scriptedInt sampleClock "1d20" ADVANTAGE [7; 14]) = Return main /\
    DiceRoll.alternateRoll main = Some alt /\
    DiceRoll.total main = Num 15 /\ DiceRoll.total alt = Num 8.
Proof. eexists _, _. repeat split; vm_compute; reflexivity. Qed.

Example advantage_tie :
  exists main alt,
    fst (roll scriptedInt sampleClock "2d6" ADVANTAGE [2; 3; 4; 1]) = Return main /\
    DiceRoll.alternateRoll main = Some alt /\
    map rolls (DiceRoll.results main) = [[3; 4]] /\
    map rolls (DiceRoll.results alt) = [[5; 2]].
Proof. eexists _, _. repeat split; vm_compute; reflexivity. Qed.

(** With a modifier of 10^18 the totals of an 8 and a 15 are the same number,
    and the first-rolled 8 stays on top under advantage. *)
Example advantage_rounded_tie :
  fst (roll scriptedInt sampleClock "1d20+1000000000000000000" ADVANTAGE [7; 14]) =
  Return (DiceRoll.mkDiceRollModel "1d20+1000000000000000000"
            [mkRollResultModel "1d20" [8] 8] [Num 1000000000000000000]
            (Num 1000000000000000000) ADVANTAGE
            (Some (DiceRoll.mkDiceRollModel "1d20+1000000000000000000"
                     [mkRollResultModel "1d20" [15] 15] [Num 1000000000000000000]
                     (Num 1000000000000000000) ADVANTAGE None (sampleClock 1%nat)))
            (sampleClock 0%nat)).
Proof. vm_compute. reflexivity. Qed.

Example disadvantage_1d20_plus_3 :
  exists main alt,
    fst (roll scriptedInt sampleClock "1d20+3" DISADVANTAGE [11; 4]) = Return main /\
    DiceRoll.alternateRoll main = Some alt /\
    DiceRoll.total main = Num 8 /\ DiceRoll.total alt = Num 15.
Proof. eexists _, _. repeat split; vm_compute; reflexivity. Qed.

Example one_sided_dice :
  fst (rollDiceGroup scriptedInt (mkDiceGroup 5 1) [9; 8; 7; 6; 5]) =
  mkRollResultModel "5d1" [1; 1; 1; 1; 1] 5.
Proof. reflexivity. Qed.

(** * Further properties *)

(** ** The parser, outcome by outcome *)

Definition emptyExpressionError : ValidationError :=
  mkValidationError "expression" "Expression cannot be empty".

Definition formatError : ValidationError :=
  mkValidationError "expression" "Invalid dice notation format".

Definition zeroCountError : ValidationError :=
  mkValidationError "count" "Invalid dice count: 0. Must be positive.".

Definition zeroSidesError : ValidationError :=
  mkValidationError "sides" "Invalid die sides: 0. Must be positive.".

(** The dice groups and the modifiers that a list of matches spells, in
    order. *)
Definition diceGroupsOf (ms : list RegExpMatch) : list DiceGroup :=
  flat_map (fun m => match diceOf m with
                     | Some (c, s) => [mkDiceGroup c s]
                     | None => []
                     end) ms.

Definition modifiersOf (ms : list RegExpMatch) : list number :=
  flat_map (fun m => match diceOf m, g_modifier m with
                     | None, Some (String x ds) => [parseInt (String x ds)]
                     | _, _ => []
                     end) ms.

Lemma trimStart_head (s : string) (c : ascii) (u : string) :
  trimStart s = String c u -> isWhiteSpace c = false.
Proof.
  induction s as [|x s IH]; simpl; [discriminate|].
  destruct (isWhiteSpace x) eqn:E; [exact IH|].
  intros H; inversion H; subst. exact E.
Qed.

Lemma trimStart_empty (s : string) : trimStart s = EmptyString -> allWhiteSpace s = true.
Proof.
  induction s as [|x s IH]; simpl; [reflexivity|].
  destruct (isWhiteSpace x); [exact IH | discriminate].
Qed.

(** Only a blank input leaves nothing to scan. *)
Lemma trimmedOf_empty (expression : string) :
  trimmedOf expression = EmptyString <-> allWhiteSpace expression = true.
Proof.
  unfold trimmedOf, trim. split.
  - intros H. destruct (trimStart expression) as [|c u] eqn:E.
    + apply trimStart_empty. exact E.
    + pose proof (trimStart_head _ _ _ E) as Hc.
      rewrite (trimEnd_cons _ _ Hc) in H. discriminate.
  - intros H. rewrite (trimStart_allWhiteSpace _ H). reflexivity.
Qed.

Lemma runBody_hasValidTokens (ms : list RegExpMatch) (st : Locals) :
  runBody ms initialLocals = Return st ->
  l_hasValidTokens st = match ms with [] => false | _ => true end.
Proof.
  intros H. destruct (runBody_return _ _ _ H) as (Hv & Hn & _).
  destruct ms as [|m ms]; [rewrite (Hn eq_refl); reflexivity | apply Hv; discriminate].
Qed.

(** The ways [parse] can end. *)
Inductive ParseOutcome (expression : string) : completion DiceExpressionModel -> Prop :=
| OutcomeBlank :
    trimmedOf expression = EmptyString ->
    ParseOutcome expression (Return (createInvalid expression [emptyExpressionError]))
| OutcomeThrow (e : AppError) :
    trimmedOf expression <> EmptyString ->
    runBody (tokens (trimmedOf expression)) initialLocals = Throw e ->
    ParseOutcome expression (Throw e)
| OutcomeNoToken :
    trimmedOf expression <> EmptyString ->
    tokens (trimmedOf expression) = [] ->
    ParseOutcome expression (Return (createInvalid expression [formatError]))
| OutcomeNoGroup (st : Locals) :
    trimmedOf expression <> EmptyString ->
    tokens (trimmedOf expression) <> [] ->
    runBody (tokens (trimmedOf expression)) initialLocals = Return st ->
    l_diceGroups st = [] ->
    ParseOutcome expression
      (Return (createInvalid expression (l_validationErrors st ++ [noDiceGroupError])%list))
| OutcomeErrors (st : Locals) :
    trimmedOf expression <> EmptyString ->
    tokens (trimmedOf expression) <> [] ->
    runBody (tokens (trimmedOf expression)) initialLocals = Return st ->
    l_diceGroups st <> [] -> l_validationErrors st <> [] ->
    ParseOutcome expression (Return (createInvalid expression (l_validationErrors st)))
| OutcomeValid (st : Locals) :
    trimmedOf expression <> EmptyString ->
    tokens (trimmedOf expression) <> [] ->
    runBody (tokens (trimmedOf expression)) initialLocals = Return st ->
    l_diceGroups st <> [] -> l_validationErrors st = [] ->
    ParseOutcome expression
      (Return (mkDiceExpressionModel expression (l_diceGroups st) (l_modifiers st) true [])).

Lemma parse_outcome (expression : string) : ParseOutcome expression (parse expression).
Proof.
  rewrite parse_tokens.
  destruct (trimmedOf expression) as [|c t] eqn:Et.
  - apply OutcomeBlank. exact Et.
  - assert (Hne : trimmedOf expression <> EmptyString) by (rewrite Et; discriminate).
    rewrite <- Et.
    destruct (runBody (tokens (trimmedOf expression)) initialLocals) as [st|e] eqn:Er.
    + rewrite (runBody_hasValidTokens _ _ Er).
      destruct (tokens (trimmedOf expression)) as [|m ms] eqn:Etok.
      * apply OutcomeNoToken; assumption.
      * assert (Htok : tokens (trimmedOf expression) <> []) by (rewrite Etok; discriminate).
        rewrite <- Etok in Er. cbn [negb]. cbv zeta.
        destruct (l_diceGroups st) as [|g gs] eqn:Eg.
        -- destruct (l_validationErrors st ++ [_])%list eqn:Ee.
           ++ destruct (l_validationErrors st); discriminate.
           ++ rewrite <- Ee. apply OutcomeNoGroup; assumption.
        -- destruct (l_validationErrors st) as [|e es] eqn:Ee.
           ++ rewrite <- Eg. apply OutcomeValid; try assumption. rewrite Eg. discriminate.
           ++ rewrite <- Ee. apply OutcomeErrors; try assumption.
              ** rewrite Eg. discriminate.
              ** rewrite Ee. discriminate.
    + apply OutcomeThrow; assumption.
Qed.

Definition tokenError (e : ValidationError) : Prop :=
  e = zeroCountError \/ e = zeroSidesError.

(** One turn of the loop on a match of [exec]: what it appends to the three
    lists. *)
Lemma loopBody_wellShaped (m : RegExpMatch) (st st' : Locals) :
  wellShaped m -> loopBody m st = Return st' ->
  (Forall tokenError (l_validationErrors st) -> Forall tokenError (l_validationErrors st')) /\
  (exists errs, l_validationErrors st' = (l_validationErrors st ++ errs)%list /\
     (errs = [] ->
      l_diceGroups st' = (l_diceGroups st ++ diceGroupsOf [m])%list /\
      l_modifiers st' = (l_modifiers st ++ modifiersOf [m])%list)).
Proof.
  intros [(c & cs & d & ds & -> & Hc & Hd) | (x & d & ds & -> & Hx & Hd)].
  - unfold loopBody, diceGroupsOf, modifiersOf, diceOf.
    cbn [g_count g_sides g_modifier truthy andb flat_map].
    destruct (parseInt_digits_compare c cs MAX_DICE Hc (proj1 (proj2 small_constants)))
      as (Ec & _).
    destruct (parseInt_digits_compare d ds MAX_SIDES Hd (proj2 (proj2 small_constants)))
      as (Es & _).
    rewrite Ec, Es. clear Ec Es.
    destruct (MAX_DICE <? decimalValue (String c cs)) eqn:E1; [discriminate|].
    destruct (MAX_SIDES <? decimalValue (String d ds)) eqn:E2; [discriminate|].
    apply Z.ltb_ge in E1, E2.
    pose proof (decimalValue_nonneg (String c cs)) as Hcv.
    pose proof (decimalValue_nonneg (String d ds)) as Hsv.
    assert (Hpow : 2 ^ 53 = 9007199254740992) by reflexivity.
    rewrite (parseInt_digits _ _ Hc), (parseInt_digits _ _ Hd).
    rewrite !roundToDouble_small by (unfold MAX_DICE, MAX_SIDES in *; lia).
    clear Hc Hd.
    generalize dependent (decimalValue (String c cs)). intros cv E1 Hcv.
    generalize dependent (decimalValue (String d ds)). intros sv E2 Hsv.
    unfold gtb. cbn [leb ltb integerOf toString].
    intros H; inversion H; subst st'; clear H. cbn [l_validationErrors l_diceGroups l_modifiers].
    destruct (Z.leb_spec cv 0) as [Ecz|Ecz]; destruct (Z.leb_spec sv 0) as [Esz|Esz].
    + assert (cv = 0) as -> by lia. assert (sv = 0) as -> by lia. split.
      * intros He. apply Forall_app. split; [apply Forall_app; split; [exact He|]|].
        -- constructor; [left; reflexivity | constructor].
        -- constructor; [right; reflexivity | constructor].
      * eexists. rewrite <- app_assoc. split; [reflexivity | discriminate].
    + assert (cv = 0) as -> by lia. split.
      * intros He. apply Forall_app. split; [exact He|].
        constructor; [left; reflexivity | constructor].
      * eexists. split; [reflexivity | discriminate].
    + assert (sv = 0) as -> by lia. split.
      * intros He. apply Forall_app. split; [exact He|].
        constructor; [right; reflexivity | constructor].
      * eexists. split; [reflexivity | discriminate].
    + split; [auto|]. exists []. rewrite !app_nil_r. split; [reflexivity|]. intros _.
      replace (0 <? cv) with true by (symmetry; apply Z.ltb_lt; lia).
      replace (0 <? sv) with true by (symmetry; apply Z.ltb_lt; lia).
      split; reflexivity.
  - unfold loopBody, diceGroupsOf, modifiersOf, diceOf.
    cbn [g_count g_sides g_modifier truthy andb flat_map].
    intros H; inversion H; subst st'; clear H. cbn [l_validationErrors l_diceGroups l_modifiers].
    split; [auto|]. exists []. rewrite !app_nil_r. split; [reflexivity|]. intros _.
    split; reflexivity.
Qed.

Lemma diceGroupsOf_cons (m : RegExpMatch) (ms : list RegExpMatch) :
  diceGroupsOf (m :: ms) = (diceGroupsOf [m] ++ diceGroupsOf ms)%list.
Proof. unfold diceGroupsOf. simpl. rewrite app_nil_r. reflexivity. Qed.

Lemma modifiersOf_cons (m : RegExpMatch) (ms : list RegExpMatch) :
  modifiersOf (m :: ms) = (modifiersOf [m] ++ modifiersOf ms)%list.
Proof. unfold modifiersOf. simpl. rewrite app_nil_r. reflexivity. Qed.

Lemma runBody_wellShaped (ms : list RegExpMatch) (st st' : Locals) :
  Forall wellShaped ms -> runBody ms st = Return st' ->
  (Forall tokenError (l_validationErrors st) -> Forall tokenError (l_validationErrors st')) /\
  (l_validationErrors st' = [] ->
   l_diceGroups st' = (l_diceGroups st ++ diceGroupsOf ms)%list /\
   l_modifiers st' = (l_modifiers st ++ modifiersOf ms)%list).
Proof.
  intros Hms. revert st. induction Hms as [|m ms Hm Hms IH]; intros st; cbn [runBody].
  - intros H; inversion H; subst. unfold diceGroupsOf, modifiersOf. simpl.
    rewrite !app_nil_r. auto.
  - destruct (loopBody m st) as [st1|e] eqn:E; [|discriminate].
    rewrite diceGroupsOf_cons, modifiersOf_cons.
    intros H. destruct (loopBody_wellShaped _ _ _ Hm E) as (He1 & errs & Herrs & Hlists).
    destruct (IH _ H) as (He2 & Hl2).
    split; [auto|]. intros Hnil.
    assert (Hmono : forall ms0 a b, runBody ms0 a = Return b ->
              l_validationErrors b = [] -> l_validationErrors a = []).
    { clear. induction ms0 as [|m0 ms0 IH0]; intros a b; simpl.
      - intros H; inversion H; subst. auto.
      - destruct (loopBody m0 a) as [a1|e] eqn:E; [|discriminate].
        intros H Hb. specialize (IH0 _ _ H Hb).
        unfold loopBody in E.
        destruct (truthy (g_count m0) && truthy (g_sides m0)).
        + destruct (gtb _ (Num MAX_DICE)); [discriminate|].
          destruct (gtb _ (Num MAX_SIDES)); [discriminate|].
          inversion E; subst; clear E. cbn [l_validationErrors] in IH0.
          destruct (leb _ (Num 0)) in IH0; destruct (leb _ (Num 0)) in IH0;
            repeat (apply app_eq_nil in IH0; destruct IH0 as [IH0 ?]); auto; discriminate.
        + destruct (truthy (g_modifier m0)); inversion E; subst; exact IH0. }
    pose proof (Hmono _ _ _ H Hnil) as H1nil.
    rewrite H1nil in Herrs. symmetry in Herrs. apply app_eq_nil in Herrs.
    destruct Herrs as [_ Herrs]. destruct (Hlists Herrs) as (Hg & Hmd).
    destruct (Hl2 Hnil) as (Hg2 & Hmd2).
    rewrite Hg2, Hmd2, Hg, Hmd, <- !app_assoc.
    split; reflexivity.
Qed.

(** X1: [parse] answers "Expression cannot be empty" exactly on the inputs
    made of white space only (the empty string among them). *)
Theorem blank_expression_iff (expression : string) :
  allWhiteSpace expression = true <->
  parse expression = Return (createInvalid expression [emptyExpressionError]).
Proof.
  split.
  - intros H. apply trimmedOf_empty in H. rewrite parse_tokens, H. reflexivity.
  - intros H. apply trimmedOf_empty.
    pose proof (parse_outcome expression) as Hout. rewrite H in Hout.
    remember (Return (createInvalid expression [emptyExpressionError])) as r eqn:Er.
    destruct Hout as [Hb | e' Hne Hrun | Hne Ht | st Hne Ht Hrun Hg
                      | st Hne Ht Hrun Hg He | st Hne Ht Hrun Hg He];
      [exact Hb | exfalso; inversion Er as [Heq] ..].
    + destruct (l_validationErrors st) as [|e [|e' es]]; discriminate.
    + destruct (runBody_return _ _ _ Hrun) as (_ & _ & _ & Hf).
      specialize (Hf (Forall_nil _)). rewrite Heq in Hf.
      inversion Hf as [|x l [Hx|Hx] _]; discriminate.
Qed.

Lemma parse_errors_known (expression : string) (model : DiceExpressionModel)
    (e : ValidationError) :
  parse expression = Return model -> In e (validationErrors model) ->
  e = emptyExpressionError \/ e = formatError \/ e = noDiceGroupError \/
  e = zeroCountError \/ e = zeroSidesError.
Proof.
  intros Hp Hin. pose proof (parse_outcome expression) as Hout. rewrite Hp in Hout.
  assert (Htok : forall st,
            runBody (tokens (trimmedOf expression)) initialLocals = Return st ->
            Forall tokenError (l_validationErrors st)).
  { intros st Hrun.
    destruct (runBody_wellShaped _ _ _ (tokens_wellShaped _) Hrun) as (Hf & _).
    apply Hf. constructor. }
  remember (Return model) as r eqn:Er.
  destruct Hout as [Hb | e' Hne Hrun | Hne Ht | st Hne Ht Hrun Hg
                    | st Hne Ht Hrun Hg He | st Hne Ht Hrun Hg He];
    inversion Er; subst model; clear Er; simpl in Hin.
  - destruct Hin as [<-|[]]. auto.
  - destruct Hin as [<-|[]]. auto.
  - apply in_app_or in Hin. destruct Hin as [Hin|[<-|[]]]; [|auto].
    pose proof (proj1 (Forall_forall _ _) (Htok _ Hrun) _ Hin) as [->| ->]; auto.
  - pose proof (proj1 (Forall_forall _ _) (Htok _ Hrun) _ Hin) as [->| ->]; auto.
  - destruct Hin.
Qed.

(** X2: every error record [parse] ever reports is one of five: blank input,
    no token, no dice group, a count of zero, sides of zero.  Counts and sides
    are runs of digits, so the "must be positive" errors always name 0. *)
Theorem parse_error_vocabulary (expression : string) (model : DiceExpressionModel)
    (e : ValidationError) :
  parse expression = Return model -> In e (validationErrors model) ->
  e = emptyExpressionError \/ e = formatError \/ e = noDiceGroupError \/
  e = zeroCountError \/ e = zeroSidesError.
Proof. apply parse_errors_known. Qed.

Lemma parse_error_vocabulary_witness :
  zeroSidesError = emptyExpressionError \/ zeroSidesError = formatError \/
  zeroSidesError = noDiceGroupError \/ zeroSidesError = zeroCountError \/
  zeroSidesError = zeroSidesError.
Proof.
  apply (parse_error_vocabulary "1d6 00d6 3d000"
           (createInvalid "1d6 00d6 3d000" [zeroCountError; zeroSidesError])).
  - vm_compute. reflexivity.
  - simpl. right. left. reflexivity.
Defined.

(** X3: what [parse] returns keeps the raw input in [original]; it is valid
    exactly when it has no error; a valid result has at least one dice group;
    an invalid one has at least one error and neither groups nor modifiers,
    whatever was scanned. *)
Theorem parse_result_invariant (expression : string) (model : DiceExpressionModel) :
  parse expression = Return model ->
  original model = expression /\
  (isValid model = true <-> validationErrors model = []) /\
  (isValid model = true -> diceGroups model <> []) /\
  (isValid model = false ->
   diceGroups model = [] /\ modifiers model = [] /\ validationErrors model <> []).
Proof.
  intros Hp. pose proof (parse_outcome expression) as Hout. rewrite Hp in Hout.
  remember (Return model) as r eqn:Er.
  destruct Hout as [Hb | e' Hne Hrun | Hne Ht | st Hne Ht Hrun Hg
                    | st Hne Ht Hrun Hg He | st Hne Ht Hrun Hg He];
    inversion Er; subst model; clear Er; simpl; (split; [reflexivity|]).
  all: repeat split; try discriminate; auto.
  all: intros Hnil; destruct (l_validationErrors st); discriminate.
Qed.

Lemma parse_result_invariant_witness :
  original (createInvalid " +5 " [noDiceGroupError]) = " +5 " /\
  modifiers (createInvalid " +5 " [noDiceGroupError]) = [].
Proof.
  destruct (parse_result_invariant " +5 " (createInvalid " +5 " [noDiceGroupError]))
    as (Ho & _ & _ & Hinv).
  - vm_compute. reflexivity.
  - split; [exact Ho|]. apply Hinv. reflexivity.
Defined.

Lemma runBody_throw_exceeds (ms : list RegExpMatch) (st : Locals) (e : AppError) :
  Forall wellShaped ms -> runBody ms st = Throw e -> Exists exceedsLimit ms.
Proof.
  intros Hms. revert st. induction Hms as [|m ms Hm Hms IH]; intros st; simpl;
    [discriminate|].
  destruct (loopBody m st) as [st1|e1] eqn:E.
  - intros H. apply Exists_cons_tl. eapply IH; eassumption.
  - intros _. apply Exists_cons_hd.
    apply loopBody_throw in E; [|exact Hm]. destruct E as (c & s & Hd & Hlim).
    exists c, s. split; [exact Hd|]. unfold MAX_DICE, MAX_SIDES in *.
    destruct Hlim as [[H _]|(_ & H & _)]; auto.
Qed.

(** X4: [parse] throws exactly when one of the matches is a dice-group token
    over a limit; what it throws is always the resource-limit error, never a
    validation error. *)
Theorem parse_throws_iff (expression : string) :
  ((exists e, parse expression = Throw e) <->
   Exists exceedsLimit (tokens (trimmedOf expression))) /\
  (forall e, parse expression = Throw e ->
     e = ResourceLimitError "Dice count exceeds maximum of 1000" \/
     e = ResourceLimitError "Die sides exceed maximum of 10000").
Proof.
  split; [split|].
  - intros (e & Hp). pose proof (parse_outcome expression) as Hout. rewrite Hp in Hout.
    remember (Throw e) as r eqn:Er.
    destruct Hout as [Hb | e' Hne Hrun | Hne Ht | st Hne Ht Hrun Hg
                      | st Hne Ht Hrun Hg He | st Hne Ht Hrun Hg He];
      inversion Er; subst e'; clear Er.
    eapply runBody_throw_exceeds; [apply tokens_wellShaped | eassumption].
  - intros Hex. apply Exists_exists in Hex. destruct Hex as (m & Hin & Hm).
    assert (Hs : wellShaped m).
    { pose proof (tokens_wellShaped (trimmedOf expression)) as Hall.
      rewrite Forall_forall in Hall. exact (Hall _ Hin). }
    apply in_split in Hin. destruct Hin as (pre & post & Htok).
    destruct (parse_oversized pre m Hs Hm) as (msg & _ & Hparse).
    eexists. apply (Hparse _ _ Htok).
  - intros e Hp. pose proof (parse_outcome expression) as Hout. rewrite Hp in Hout.
    remember (Throw e) as r eqn:Er.
    destruct Hout as [Hb | e' Hne Hrun | Hne Ht | st Hne Ht Hrun Hg
                      | st Hne Ht Hrun Hg He | st Hne Ht Hrun Hg He];
      inversion Er; subst e'; clear Er.
    destruct (runBody_throw _ _ _ Hrun) as (msg & -> & [-> | ->]); auto.
Qed.

(** X5: in a valid result the dice groups are the dice-group tokens of the
    input, all of them and in order, and the modifiers are its modifier
    tokens, all of them and in order. *)
Theorem valid_parse_spells_tokens (expression : string) (model : DiceExpressionModel) :
  parse expression = Return model -> isValid model = true ->
  diceGroups model = diceGroupsOf (tokens (trimmedOf expression)) /\
  modifiers model = modifiersOf (tokens (trimmedOf expression)).
Proof.
  intros Hp Hv.
  destruct (parse_valid_inv _ _ Hp Hv) as (st & Hrun & Hg & Hm & He & _).
  destruct (runBody_wellShaped _ _ _ (tokens_wellShaped _) Hrun) as (_ & Hl).
  destruct (Hl He) as (Hg' & Hm'). rewrite Hg, Hm, Hg', Hm'. split; reflexivity.
Qed.

Lemma valid_parse_spells_tokens_witness :
  [mkDiceGroup 1 20; mkDiceGroup 2 6] =
    diceGroupsOf (tokens (trimmedOf "1d20 -2 2D6 x +7")) /\
  [Num (-2); Num 7] = modifiersOf (tokens (trimmedOf "1d20 -2 2D6 x +7")).
Proof.
  apply (valid_parse_spells_tokens "1d20 -2 2D6 x +7"
           (mkDiceExpressionModel "1d20 -2 2D6 x +7"
              [mkDiceGroup 1 20; mkDiceGroup 2 6] [Num (-2); Num 7] true []));
    vm_compute; reflexivity.
Defined.

(** *** What [exec] finds is a token of the input *)

Lemma spanDigits_split (s : string) : s = fst (spanDigits s) ++ snd (spanDigits s).
Proof.
  induction s as [|c s IH]; simpl; [reflexivity|].
  destruct (isDigit c); [|reflexivity].
  destruct (spanDigits s) as [ds r]. simpl in *. rewrite <- IH. reflexivity.
Qed.

Lemma matchModifier_sound (u : string) (m : RegExpMatch) (rest : string) :
  matchModifier u = Some (m, rest) -> exists t, u = t ++ rest /\ modifierShape t.
Proof.
  unfold matchModifier. destruct u as [|x u']; [discriminate|].
  destruct (isSign x) eqn:Ex; [|discriminate].
  pose proof (spanDigits_split u') as Hs. pose proof (spanDigits_allDigits u') as Hd.
  destruct (spanDigits u') as [[|d ds] r]; [discriminate|].
  cbn [fst snd] in Hs, Hd.
  intros H; inversion H; subst m rest; clear H.
  exists (String x (String d ds)). split.
  - rewrite Hs at 1. reflexivity.
  - exists x, d, ds. auto.
Qed.

Lemma matchHere_sound (u : string) (m : RegExpMatch) (rest : string) :
  matchHere u = Some (m, rest) ->
  exists t, u = t ++ rest /\ (diceShape t \/ modifierShape t).
Proof.
  assert (Hmod : matchModifier u = Some (m, rest) ->
                 exists t, u = t ++ rest /\ (diceShape t \/ modifierShape t)).
  { intros H. destruct (matchModifier_sound _ _ _ H) as (t & Ht & Hsh). eauto. }
  unfold matchHere, matchDice.
  pose proof (spanDigits_split u) as Hs. pose proof (spanDigits_allDigits u) as Hc.
  destruct (spanDigits u) as [[|c cs] [|x afterD]]; try exact Hmod.
  destruct (isD x) eqn:Ex; [|exact Hmod].
  pose proof (spanDigits_split afterD) as Hs'.
  pose proof (spanDigits_allDigits afterD) as Hd.
  destruct (spanDigits afterD) as [[|d ds] r]; [exact Hmod|].
  cbn [fst snd] in Hs, Hs', Hc, Hd.
  intros H; inversion H; subst m rest; clear H.
  exists (String c cs ++ String x (String d ds)). split.
  - rewrite append_assoc. rewrite Hs at 1. rewrite Hs' at 1. reflexivity.
  - left. exists c, cs, x, d, ds. auto.
Qed.

Lemma exec_sound (s : string) (m : RegExpMatch) (rest : string) :
  exec s = Some (m, rest) -> containsToken s.
Proof.
  induction s as [|c s IH]; cbn [exec].
  - destruct (matchHere "") as [r|] eqn:E; [|discriminate].
    intros H; inversion H; subst.
    destruct (matchHere_sound _ _ _ E) as (t & Ht & Hsh).
    exists "", t, rest. split; [exact Ht | exact Hsh].
  - destruct (matchHere (String c s)) as [r|] eqn:E.
    + intros H; inversion H; subst.
      destruct (matchHere_sound _ _ _ E) as (t & Ht & Hsh).
      exists "", t, rest. split; [exact Ht | exact Hsh].
    + intros H. destruct (IH H) as (pre & t & post & -> & Hsh).
      exists (String c pre), t, post. split; [reflexivity | exact Hsh].
Qed.

Lemma toLowerCase_split (s a b : string) :
  toLowerCase s = a ++ b ->
  exists a0 b0, s = a0 ++ b0 /\ toLowerCase a0 = a /\ toLowerCase b0 = b.
Proof.
  revert s. induction a as [|x a IH]; intros s H.
  - exists "", s. auto.
  - destruct s as [|y s]; [discriminate|]. simpl in H. inversion H as [[Hx Ht]].
    destruct (IH _ Ht) as (a0 & b0 & -> & Ha & Hb).
    exists (String y a0), b0. simpl. rewrite Ha. auto.
Qed.

Lemma isD_lowerChar (c : ascii) : isD (lowerChar c) = isD c.
Proof. destruct c as [[] [] [] [] [] [] [] []]; reflexivity. Qed.

Lemma isSign_lowerChar (c : ascii) : isSign (lowerChar c) = isSign c.
Proof. destruct c as [[] [] [] [] [] [] [] []]; reflexivity. Qed.

Lemma allDigits_toLowerCase (s : string) : allDigits (toLowerCase s) = allDigits s.
Proof.
  induction s as [|c s IH]; simpl; [reflexivity|].
  rewrite isDigit_lowerChar, IH. reflexivity.
Qed.

Lemma token_unlower (t : string) :
  diceShape (toLowerCase t) \/ modifierShape (toLowerCase t) ->
  diceShape t \/ modifierShape t.
Proof.
  intros [(c & cs & x & d & ds & Ht & Hc & Hx & Hd) | (x & d & ds & Ht & Hx & Hd)].
  - left. destruct (toLowerCase_split _ _ _ Ht) as (a0 & b0 & -> & Ha & Hb).
    destruct a0 as [|c0 cs0]; [discriminate|].
    destruct b0 as [|x0 [|d0 ds0]]; try discriminate.
    exists c0, cs0, x0, d0, ds0. split; [reflexivity|].
    rewrite <- Ha, allDigits_toLowerCase in Hc.
    simpl in Hb. inversion Hb as [[Hx0 Hd0 Hds0]].
    rewrite <- Hx0, isD_lowerChar in Hx.
    assert (Hd' : allDigits (toLowerCase (String d0 ds0)) = true)
      by (simpl; rewrite Hd0, Hds0; exact Hd).
    rewrite allDigits_toLowerCase in Hd'. auto.
  - right. destruct t as [|x0 [|d0 ds0]]; try discriminate.
    simpl in Ht. inversion Ht as [[Hx0 Hd0 Hds0]].
    exists x0, d0, ds0. split; [reflexivity|].
    rewrite <- Hx0, isSign_lowerChar in Hx.
    assert (Hd' : allDigits (toLowerCase (String d0 ds0)) = true)
      by (simpl; rewrite Hd0, Hds0; exact Hd).
    rewrite allDigits_toLowerCase in Hd'. auto.
Qed.

Lemma containsToken_unlower (s : string) :
  containsToken (toLowerCase s) -> containsToken s.
Proof.
  intros (pre & t & post & Hs & Ht).
  destruct (toLowerCase_split _ _ _ Hs) as (pre0 & r0 & -> & Hpre & Hr).
  destruct (toLowerCase_split _ _ _ Hr) as (t0 & post0 & -> & Ht0 & Hpost).
  exists pre0, t0, post0. split; [reflexivity|].
  apply token_unlower. rewrite Ht0. exact Ht.
Qed.

Lemma trimStart_suffix (s : string) : exists a, s = a ++ trimStart s.
Proof.
  induction s as [|c s (a & IH)]; simpl; [exists ""; reflexivity|].
  destruct (isWhiteSpace c).
  - exists (String c a). simpl. rewrite <- IH. reflexivity.
  - exists "". reflexivity.
Qed.

Lemma trimEnd_prefix (s : string) : exists b, s = trimEnd s ++ b.
Proof.
  induction s as [|c s (b & IH)]; simpl; [exists ""; reflexivity|].
  destruct (trimEnd s) as [|x t] eqn:E.
  - destruct (isWhiteSpace c).
    + exists (String c s). reflexivity.
    + exists s. reflexivity.
  - exists b. simpl. simpl in IH. rewrite <- IH. reflexivity.
Qed.

Lemma containsToken_untrim (s : string) : containsToken (trim s) -> containsToken s.
Proof.
  intros (pre & t & post & Hs & Ht). unfold trim in Hs.
  destruct (trimStart_suffix s) as (a & Ha).
  destruct (trimEnd_prefix (trimStart s)) as (b & Hb).
  exists (a ++ pre), t, (post ++ b). split; [|exact Ht].
  rewrite Ha at 1. rewrite Hb, Hs. rewrite !append_assoc. reflexivity.
Qed.

(** The scanner finds a match exactly when the raw input has a substring of
    token shape. *)
Lemma tokens_nonempty_iff (expression : string) :
  tokens (trimmedOf expression) <> [] <-> containsToken expression.
Proof.
  split; [|apply tokens_nonempty].
  rewrite tokens_unfold.
  destruct (exec (trimmedOf expression)) as [[m rest]|] eqn:E; [|congruence].
  intros _. apply exec_sound in E.
  apply containsToken_untrim, containsToken_unlower. exact E.
Qed.

(** X6: [parse] answers "Invalid dice notation format" exactly on the inputs
    that are not blank and have no substring of the form digits-d-digits or
    sign-digits. *)
Theorem format_error_iff (expression : string) :
  parse expression = Return (createInvalid expression [formatError]) <->
  allWhiteSpace expression = false /\ ~ containsToken expression.
Proof.
  split.
  - intros Hp. pose proof (parse_outcome expression) as Hout. rewrite Hp in Hout.
    remember (Return (createInvalid expression [formatError])) as r eqn:Er.
    destruct Hout as [Hb | e' Hne Hrun | Hne Ht | st Hne Ht Hrun Hg
                      | st Hne Ht Hrun Hg He | st Hne Ht Hrun Hg He];
      inversion Er as [Heq]; clear Er.
    + split.
      * destruct (allWhiteSpace expression) eqn:E; [|reflexivity].
        exfalso. apply Hne, trimmedOf_empty. exact E.
      * intros Hc. apply tokens_nonempty_iff in Hc. contradiction.
    + exfalso. destruct (l_validationErrors st) as [|e [|e' es]]; discriminate.
    + exfalso. destruct (runBody_return _ _ _ Hrun) as (_ & _ & _ & Hf).
      specialize (Hf (Forall_nil _)). rewrite Heq in Hf.
      inversion Hf as [|x l [Hx|Hx] _]; discriminate.
  - intros (Hw & Hc).
    assert (Hne : trimmedOf expression <> "").
    { intros E. apply trimmedOf_empty in E. congruence. }
    assert (Ht : tokens (trimmedOf expression) = []).
    { destruct (tokens (trimmedOf expression)) eqn:E; [reflexivity|].
      exfalso. apply Hc, tokens_nonempty_iff. rewrite E. discriminate. }
    rewrite parse_tokens, Ht.
    destruct (trimmedOf expression); [congruence | reflexivity].
Qed.

(** ** The service and the roller, further *)

(** The notation [rollDiceGroup] writes for a group. *)
Definition groupNotation (dg : DiceGroup) : string :=
  numberToString (count dg) ++ "d" ++ numberToString (sides dg).

(** The greatest sum of the dice of an expression: every die shows its
    number of sides. *)
Definition maxDice (p : DiceExpressionModel) : Z :=
  sumZ (map (fun dg => count dg * sides dg) (diceGroups p)).

(** The least and the greatest total of an expression whose modifiers are the
    integers [ms]: every die shows 1, or every die shows its number of
    sides. *)
Definition minTotal (p : DiceExpressionModel) (ms : list Z) : Z :=
  sumZ (map count (diceGroups p)) + sumZ ms.

Definition maxTotal (p : DiceExpressionModel) (ms : list Z) : Z :=
  maxDice p + sumZ ms.

(** A generator that only counts the draws made from it. *)
Definition countingInt (lo hi : Z) (draws : nat) : Z * nat := (lo, S draws).

Lemma parse_invalid_message (expression : string) (parsed : DiceExpressionModel) :
  parse expression = Return parsed -> isValid parsed = false ->
  join "; " (map message (validationErrors parsed)) <> "".
Proof.
  intros Hp Hv.
  assert (Hne : validationErrors parsed <> []).
  { pose proof (parse_outcome expression) as Hout. rewrite Hp in Hout.
    remember (Return parsed) as r eqn:Er.
    destruct Hout as [Hb | e' Hne Hrun | Hne Ht | st Hne Ht Hrun Hg
                      | st Hne Ht Hrun Hg He | st Hne Ht Hrun Hg He];
      inversion Er; subst parsed; clear Er; simpl; try discriminate; auto.
    destruct (l_validationErrors st); discriminate. }
  destruct (validationErrors parsed) as [|e es] eqn:E; [congruence|].
  assert (Hmsg : exists c t, message e = String c t).
  { destruct (parse_errors_known expression parsed e Hp) as [->|[->|[->|[->| ->]]]];
      [rewrite E; left; reflexivity | simpl; eauto ..]. }
  destruct Hmsg as (c & t & Hm). unfold join. simpl. rewrite Hm.
  destruct (map message es); simpl; discriminate.
Qed.

Lemma sumZ_app (a b : list Z) : sumZ (a ++ b) = sumZ a + sumZ b.
Proof. induction a as [|x a IH]; simpl; [reflexivity | rewrite IH; lia]. Qed.

Lemma sumZ_bounds (l : list Z) (s : Z) :
  Forall (fun x => 1 <= x <= s) l ->
  Z.of_nat (length l) <= sumZ l <= Z.of_nat (length l) * s.
Proof.
  induction 1 as [|x l Hx Hl IH]; [simpl; lia|].
  cbn [length sumZ fold_right]. fold (sumZ l). rewrite Nat2Z.inj_succ. nia.
Qed.

Section ServiceFacts.

Variable Rng : Type.
Variable randomInt : Z -> Z -> Rng -> Z * Rng.
Variable now : nat -> string.

Lemma rollLoop_length (n : nat) (sides : Z) (acc : list Z) (g : Rng) :
  exists drawn,
    fst (rollLoop randomInt n sides acc g) = (acc ++ drawn)%list /\ length drawn = n.
Proof.
  revert acc g. induction n as [|n IH]; intros acc g; simpl.
  - exists []. rewrite app_nil_r. auto.
  - destruct (randomInt 1 (sides + 1) g) as [x g1].
    destruct (IH (acc ++ [x])%list g1) as (drawn & Hd & Hlen).
    exists (x :: drawn). rewrite Hd, <- app_assoc. simpl. auto.
Qed.

Lemma rollDiceGroup_shape (dg : DiceGroup) (g : Rng) :
  notation (fst (rollDiceGroup randomInt dg g)) = groupNotation dg /\
  length (rolls (fst (rollDiceGroup randomInt dg g))) = Z.to_nat (count dg) /\
  subtotal (fst (rollDiceGroup randomInt dg g)) =
    sumZ (rolls (fst (rollDiceGroup randomInt dg g))).
Proof.
  unfold rollDiceGroup.
  destruct (rollLoop_length (Z.to_nat (count dg)) (sides dg) [] g) as (drawn & Hd & Hlen).
  destruct (rollLoop randomInt (Z.to_nat (count dg)) (sides dg) [] g) as [rs g'].
  simpl in Hd. subst rs. cbn [fst notation rolls subtotal].
  rewrite reduceSum_id. auto.
Qed.

Lemma rollAll_shape (groups : list DiceGroup) (g : Rng) :
  map notation (fst (rollAll randomInt groups g)) = map groupNotation groups /\
  map (fun r => length (rolls r)) (fst (rollAll randomInt groups g)) =
    map (fun dg => Z.to_nat (count dg)) groups /\
  Forall (fun r => subtotal r = sumZ (rolls r)) (fst (rollAll randomInt groups g)).
Proof.
  revert g. induction groups as [|dg groups IH]; intros g; simpl; [auto|].
  destruct (rollDiceGroup_shape dg g) as (Hn & Hl & Hs).
  destruct (rollDiceGroup randomInt dg g) as [r g1]. cbn [fst] in *.
  destruct (IH g1) as (IHn & IHl & IHs).
  destruct (rollAll randomInt groups g1) as [rs g2]. cbn [fst] in *.
  simpl. rewrite Hn, Hl, IHn, IHl. auto.
Qed.

(** X7: a plain roll that returns gives one result per dice group of the
    parsed expression, in the parser's order, each with that group's notation,
    as many rolls as its count and their sum as subtotal; the record echoes the
    raw expression and the parsed modifiers and has no alternate. *)
Theorem plain_roll_structure (expression : string) (g g' : Rng)
    (r : DiceRoll.DiceRollModel) :
  roll randomInt now expression NONE g = (Return r, g') ->
  exists parsed,
    parse expression = Return parsed /\ isValid parsed = true /\
    DiceRoll.expression r = expression /\
    DiceRoll.modifiers r = modifiers parsed /\
    DiceRoll.advantageMode r = NONE /\
    DiceRoll.alternateRoll r = None /\
    map notation (DiceRoll.results r) = map groupNotation (diceGroups parsed) /\
    map (fun x => length (rolls x)) (DiceRoll.results r) =
      map (fun dg => Z.to_nat (count dg)) (diceGroups parsed) /\
    Forall (fun x => subtotal x = sumZ (rolls x)) (DiceRoll.results r).
Proof.
  destruct (parse expression) as [parsed|e] eqn:Hp;
    [|rewrite (roll_parse_throw _ _ _ _ _ _ _ Hp); discriminate].
  destruct (isValid parsed) eqn:Hv;
    [|rewrite (roll_invalid _ _ _ _ _ _ _ Hp Hv); discriminate].
  rewrite (roll_plain _ _ _ _ _ _ Hp Hv). intros H; inversion H; subst; clear H.
  exists parsed. cbn.
  destruct (rollAll_shape (diceGroups parsed) g) as (Hn & Hl & Hs).
  repeat split; auto.
Qed.

(** X8: [roll] throws the resource-limit error exactly when [parse] throws
    it, with the same message, and then the generator is as it was. *)
Theorem roll_resource_limit_iff (expression : string) (mode : AdvantageMode)
    (g g' : Rng) (msg : string) :
  roll randomInt now expression mode g = (Throw (ResourceLimitError msg), g') <->
  g' = g /\ parse expression = Throw (ResourceLimitError msg).
Proof.
  split.
  - destruct (parse expression) as [parsed|e] eqn:Hp.
    + destruct (isValid parsed) eqn:Hv;
        [|rewrite (roll_invalid _ _ _ _ _ _ _ Hp Hv); discriminate].
      destruct mode.
      * rewrite (roll_plain _ _ _ _ _ _ Hp Hv). discriminate.
      * destruct (Nat.eq_dec (length (diceGroups parsed)) 1) as [Hl|Hl].
        -- destruct (diceGroups parsed) as [|group [|? ?]] eqn:Hg; try discriminate.
           rewrite (roll_single _ _ _ _ ADVANTAGE _ _ _ Hp Hv ltac:(discriminate) Hg).
           discriminate.
        -- rewrite (roll_not_single _ _ _ _ ADVANTAGE _ _ Hp Hv ltac:(discriminate) Hl).
           discriminate.
      * destruct (Nat.eq_dec (length (diceGroups parsed)) 1) as [Hl|Hl].
        -- destruct (diceGroups parsed) as [|group [|? ?]] eqn:Hg; try discriminate.
           rewrite (roll_single _ _ _ _ DISADVANTAGE _ _ _ Hp Hv ltac:(discriminate) Hg).
           discriminate.
        -- rewrite (roll_not_single _ _ _ _ DISADVANTAGE _ _ Hp Hv ltac:(discriminate) Hl).
           discriminate.
    + rewrite (roll_parse_throw _ _ _ _ _ _ _ Hp). intros H; inversion H; subst. auto.
  - intros (-> & Hp). apply roll_parse_throw. exact Hp.
Qed.

Lemma roll_throw_inv (expression : string) (mode : AdvantageMode)
    (g g' : Rng) (e : AppError) :
  roll randomInt now expression mode g = (Throw e, g') ->
  g' = g /\
  exists msg, (e = AppValidationError msg \/ e = ResourceLimitError msg) /\ msg <> "".
Proof.
  assert (Hadv : forall m parsed, m <> NONE ->
            parse expression = Return parsed -> isValid parsed = true ->
            roll randomInt now expression m g = (Throw e, g') ->
            g' = g /\
            exists msg, (e = AppValidationError msg \/ e = ResourceLimitError msg) /\
                        msg <> "").
  { intros m parsed Hm Hp Hv.
    destruct (Nat.eq_dec (length (diceGroups parsed)) 1) as [Hl|Hl].
    - destruct (diceGroups parsed) as [|group [|? ?]] eqn:Hg; try discriminate.
      rewrite (roll_single _ _ _ _ m _ _ _ Hp Hv Hm Hg).
      cbv zeta. destruct (firstSelected _ _ _); discriminate.
    - rewrite (roll_not_single _ _ _ _ m _ _ Hp Hv Hm Hl).
      intros H; inversion H; subst. split; [reflexivity|].
      eexists. split; [left; reflexivity | discriminate]. }
  destruct (parse expression) as [parsed|e0] eqn:Hp.
  - destruct (isValid parsed) eqn:Hv.
    + destruct mode.
      * rewrite (roll_plain _ _ _ _ _ _ Hp Hv). discriminate.
      * apply (Hadv ADVANTAGE parsed); auto; discriminate.
      * apply (Hadv DISADVANTAGE parsed); auto; discriminate.
    + rewrite (roll_invalid _ _ _ _ _ _ _ Hp Hv). intros H; inversion H; subst.
      split; [reflexivity|]. eexists. split; [left; reflexivity|].
      apply (parse_invalid_message _ _ Hp Hv).
  - rewrite (roll_parse_throw _ _ _ _ _ _ _ Hp). intros H; inversion H; subst.
    split; [reflexivity|].
    pose proof (parse_outcome expression) as Hout. rewrite Hp in Hout.
    remember (Throw e) as x eqn:Ex.
    destruct Hout as [Hb | e' Hne Hrun | Hne Ht | st Hne Ht Hrun Hg
                      | st Hne Ht Hrun Hg He | st Hne Ht Hrun Hg He];
      inversion Ex; subst e'; clear Ex.
    destruct (runBody_throw _ _ _ Hrun) as (m & -> & [-> | ->]);
      eexists; (split; [right; reflexivity | discriminate]).
Qed.

(** X9: whenever [roll] throws, no die has been drawn, and the message of a
    validation error is never empty. *)
Theorem roll_throw_no_draw (expression : string) (mode : AdvantageMode)
    (g g' : Rng) (e : AppError) :
  roll randomInt now expression mode g = (Throw e, g') ->
  g' = g /\ forall msg, e = AppValidationError msg -> msg <> "".
Proof.
  intros H. destruct (roll_throw_inv _ _ _ _ _ H) as (Hg & msg & Hkind & Hne).
  split; [exact Hg|]. intros msg' ->. destruct Hkind as [E|E]; inversion E; subst.
  exact Hne.
Qed.

End ServiceFacts.

Lemma parse_valid_limits (expression : string) (parsed : DiceExpressionModel) :
  parse expression = Return parsed -> isValid parsed = true ->
  Forall withinLimits (diceGroups parsed).
Proof.
  intros Hp Hv.
  destruct (parse_valid_inv _ _ Hp Hv) as (st & Hrun & Hg & _).
  rewrite Hg. apply runBody_return in Hrun.
  destruct Hrun as (_ & _ & Hlim & _). apply Hlim. constructor.
Qed.

Section RangeFacts.

Variable Rng : Type.
Variable randomInt : Z -> Z -> Rng -> Z * Rng.
Variable now : nat -> string.

Hypothesis randomInt_range :
  forall (lo hi : Z) (g : Rng),
    lo < hi -> hi - lo < 2 ^ 48 -> lo <= fst (randomInt lo hi g) < hi.

Lemma rollDiceGroup_subtotal_bounds (dg : DiceGroup) (g : Rng) :
  withinLimits dg ->
  count dg <= subtotal (fst (rollDiceGroup randomInt dg g)) <= count dg * sides dg.
Proof.
  intros ((Hc1 & Hc2) & (Hs1 & Hs2)). unfold rollDiceGroup.
  assert (Hs : 1 <= sides dg < 2 ^ 48) by (split; [lia|]; eapply Z.le_lt_trans; [exact Hs2|]; reflexivity).
  destruct (rollLoop_spec Rng randomInt randomInt_range
              (Z.to_nat (count dg)) (sides dg) [] g Hs) as (drawn & Hd & Hlen & Hall).
  destruct (rollLoop randomInt (Z.to_nat (count dg)) (sides dg) [] g) as [rs g'].
  simpl in Hd. subst rs. cbn [fst subtotal]. rewrite reduceSum_id.
  pose proof (sumZ_bounds _ _ Hall) as Hb. rewrite Hlen, Z2Nat.id in Hb by lia.
  exact Hb.
Qed.

(** For a group within the limits the subtotal, held as an integer, is the
    sum of the rolls as the code adds them, number by number. *)
Lemma rollDiceGroup_subtotal_as_numbers (dg : DiceGroup) (g : Rng) :
  withinLimits dg ->
  reduceAdd ofInteger (rolls (fst (rollDiceGroup randomInt dg g))) =
  Num (subtotal (fst (rollDiceGroup randomInt dg g))).
Proof.
  intros ((Hc1 & Hc2) & (Hs1 & Hs2)). unfold rollDiceGroup.
  assert (Hs : 1 <= sides dg < 2 ^ 48)
    by (split; [lia|]; eapply Z.le_lt_trans; [exact Hs2|]; reflexivity).
  destruct (rollLoop_spec Rng randomInt randomInt_range
              (Z.to_nat (count dg)) (sides dg) [] g Hs) as (drawn & Hd & Hlen & Hall).
  destruct (rollLoop randomInt (Z.to_nat (count dg)) (sides dg) [] g) as [rs g'].
  simpl in Hd. subst rs. cbn [fst rolls subtotal].
  apply reduceSum_as_numbers.
  pose proof (sumZ_bounds _ _ Hall) as Hb. rewrite Hlen, Z2Nat.id in Hb by lia.
  assert (Habs : sumZ (map Z.abs drawn) = sumZ drawn).
  { clear Hb Hlen. induction Hall as [|x l Hx Hl IH]; [reflexivity|].
    cbn [map sumZ fold_right]. fold (sumZ (map Z.abs l)). fold (sumZ l). lia. }
  rewrite Habs.
  assert (Hprod : count dg * sides dg <= 1000 * 10000) by nia.
  assert (Hpow : 1000 * 10000 < 2 ^ 53) by reflexivity. lia.
Qed.

Lemma rollAll_subtotal_bounds (groups : list DiceGroup) (g : Rng) :
  Forall withinLimits groups ->
  sumZ (map count groups) <=
    sumZ (map subtotal (fst (rollAll randomInt groups g))) <=
  sumZ (map (fun dg => count dg * sides dg) groups) /\
  sumZ (map Z.abs (map subtotal (fst (rollAll randomInt groups g)))) =
    sumZ (map subtotal (fst (rollAll randomInt groups g))).
Proof.
  intros Hall. revert g. induction Hall as [|dg groups Hdg Hall IH]; intros g.
  - simpl. lia.
  - cbn [rollAll].
    pose proof (rollDiceGroup_subtotal_bounds dg g Hdg) as Hb.
    destruct Hdg as ((Hc1 & Hc2) & _).
    destruct (rollDiceGroup randomInt dg g) as [r g1]. cbn [fst] in Hb.
    specialize (IH g1).
    destruct (rollAll randomInt groups g1) as [rs g2]. cbn [fst] in *.
    cbn [map sumZ fold_right]. fold (sumZ (map count groups)).
    fold (sumZ (map subtotal rs)). fold (sumZ (map Z.abs (map subtotal rs))).
    fold (sumZ (map (fun dg0 => count dg0 * sides dg0) groups)). lia.
Qed.

(** X10: over a random source that honours its range, for an expression
    whose modifiers are integers and for which the greatest sum of the dice
    and the magnitudes of the modifiers add up to less than 2^53, the total of
    every record [roll] returns, and of its alternate, is an integer between
    the total with every die showing 1 and the total with every die showing
    its number of sides, modifiers included. *)
Theorem roll_total_bounds (expression : string) (mode : AdvantageMode)
    (g g' : Rng) (r : DiceRoll.DiceRollModel) (parsed : DiceExpressionModel)
    (ms : list Z) :
  roll randomInt now expression mode g = (Return r, g') ->
  parse expression = Return parsed ->
  modifiers parsed = map Num ms ->
  maxDice parsed + sumZ (map Z.abs ms) < 2 ^ 53 ->
  (exists t, DiceRoll.total r = Num t /\
             minTotal parsed ms <= t <= maxTotal parsed ms) /\
  (forall alt, DiceRoll.alternateRoll r = Some alt ->
     exists t, DiceRoll.total alt = Num t /\
               minTotal parsed ms <= t <= maxTotal parsed ms).
Proof.
  intros Hroll Hp Hms Hsafe. revert Hroll.
  destruct (isValid parsed) eqn:Hv;
    [|rewrite (roll_invalid _ _ _ _ _ _ _ Hp Hv); discriminate].
  pose proof (parse_valid_limits _ _ Hp Hv) as Hlim.
  pose proof (sumZ_abs_nonneg ms) as Hmn.
  assert (Hsingle : forall m, m <> NONE ->
            roll randomInt now expression m g = (Return r, g') ->
            (exists t, DiceRoll.total r = Num t /\
                       minTotal parsed ms <= t <= maxTotal parsed ms) /\
            (forall alt, DiceRoll.alternateRoll r = Some alt ->
               exists t, DiceRoll.total alt = Num t /\
                         minTotal parsed ms <= t <= maxTotal parsed ms)).
  { intros m Hm.
    destruct (Nat.eq_dec (length (diceGroups parsed)) 1) as [Hl|Hl];
      [|rewrite (roll_not_single _ _ _ _ m _ _ Hp Hv Hm Hl); discriminate].
    destruct (diceGroups parsed) as [|group [|? ?]] eqn:Hg; try discriminate.
    rewrite (roll_single _ _ _ _ m _ _ _ Hp Hv Hm Hg). cbv zeta.
    inversion Hlim as [|x l Hgroup _]; subst.
    pose proof (rollDiceGroup_subtotal_bounds group g Hgroup) as Hb1.
    pose proof (rollDiceGroup_subtotal_bounds group
                  (snd (rollDiceGroup randomInt group g)) Hgroup) as Hb2.
    destruct Hgroup as ((Hc1 & Hc2) & _).
    unfold minTotal, maxTotal, maxDice in *. rewrite Hg in *.
    cbn [map sumZ fold_right] in *. rewrite Hms.
    rewrite !candidate_total_exact by lia.
    intros Hroll.
    destruct (firstSelected _ _ _); inversion Hroll; subst; clear Hroll;
      cbn [DiceRoll.total DiceRoll.alternateRoll];
      (split; [eexists; split; [reflexivity | lia]|]);
      intros alt Ha; inversion Ha; subst; cbn [DiceRoll.total];
      eexists; (split; [reflexivity | lia]). }
  destruct mode.
  - rewrite (roll_plain _ _ _ _ _ _ Hp Hv). intros H; inversion H; subst; clear H.
    cbn [DiceRoll.total DiceRoll.alternateRoll].
    pose proof (rollAll_subtotal_bounds (diceGroups parsed) g Hlim) as (Hb & Habs).
    unfold minTotal, maxTotal, maxDice in *. rewrite Hms.
    rewrite total_exact by lia.
    split; [eexists; split; [reflexivity | lia] | discriminate].
  - apply Hsingle. discriminate.
  - apply Hsingle. discriminate.
Qed.

End RangeFacts.

Lemma roll_total_bounds_witness :
  (exists t, Num 10 = Num t /\ 3 <= t <= 13) /\
  (forall alt : DiceRoll.DiceRollModel, None = Some alt ->
     exists t, DiceRoll.total alt = Num t /\ 3 <= t <= 13).
Proof.
  exact (roll_total_bounds (list Z) scriptedInt sampleClock scriptedInt_range
           "2d6+1" NONE [3; 4] [] _
           (mkDiceExpressionModel "2d6+1" [mkDiceGroup 2 6] [Num 1] true []) [1]
           eq_refl eq_refl eq_refl eq_refl).
Defined.

Section SelectionFacts.

Variable Rng : Type.
Variable randomInt : Z -> Z -> Rng -> Z * Rng.
Variable now : nat -> string.

(** X11: a roll with advantage or disadvantage that returns holds two
    candidates for the same group (same notation, same number of rolls), both
    tagged with the requested mode and carrying the same modifiers; when the
    arithmetic of both records stays exact (integer modifiers, magnitudes
    adding up to less than 2^53), the two totals are integers that differ by
    exactly the difference of the dice subtotals, and the record on top has
    the larger (advantage) or smaller (disadvantage) dice subtotal: the
    modifiers then do not change which candidate is selected. *)
Theorem advantage_compares_dice (expression : string) (mode : AdvantageMode)
    (g g' : Rng) (r : DiceRoll.DiceRollModel) :
  mode <> NONE ->
  roll randomInt now expression mode g = (Return r, g') ->
  exists alt a b,
    DiceRoll.alternateRoll r = Some alt /\
    DiceRoll.results r = [a] /\ DiceRoll.results alt = [b] /\
    notation a = notation b /\ length (rolls a) = length (rolls b) /\
    DiceRoll.advantageMode r = mode /\ DiceRoll.advantageMode alt = mode /\
    DiceRoll.modifiers alt = DiceRoll.modifiers r /\
    (safeRecord r -> safeRecord alt ->
     exists t u,
       DiceRoll.total r = Num t /\ DiceRoll.total alt = Num u /\
       t - u = subtotal a - subtotal b /\
       (mode = ADVANTAGE -> subtotal b <= subtotal a) /\
       (mode = DISADVANTAGE -> subtotal a <= subtotal b)).
Proof.
  intros Hm.
  destruct (parse expression) as [parsed|e] eqn:Hp;
    [|rewrite (roll_parse_throw _ _ _ _ _ _ _ Hp); discriminate].
  destruct (isValid parsed) eqn:Hv;
    [|rewrite (roll_invalid _ _ _ _ _ _ _ Hp Hv); discriminate].
  destruct (Nat.eq_dec (length (diceGroups parsed)) 1) as [Hl|Hl];
    [|rewrite (roll_not_single _ _ _ _ mode _ _ Hp Hv Hm Hl); discriminate].
  destruct (diceGroups parsed) as [|group [|? ?]] eqn:Hg; try discriminate.
  rewrite (roll_single _ _ _ _ mode _ _ _ Hp Hv Hm Hg). cbv zeta.
  destruct (rollDiceGroup_shape Rng randomInt group g) as (Hn1 & Hl1 & _).
  destruct (rollDiceGroup_shape Rng randomInt group
              (snd (rollDiceGroup randomInt group g))) as (Hn2 & Hl2 & _).
  set (first := fst (rollDiceGroup randomInt group g)) in *.
  set (second := fst (rollDiceGroup randomInt group
                        (snd (rollDiceGroup randomInt group g)))) in *.
  assert (Hexact : forall ms ms',
            modifiers parsed = map Num ms -> modifiers parsed = map Num ms' ->
            Z.abs (subtotal first) + sumZ (map Z.abs ms) < 2 ^ 53 ->
            Z.abs (subtotal second) + sumZ (map Z.abs ms') < 2 ^ 53 ->
            add (ofInteger (subtotal first)) (reduceAdd (fun m => m) (modifiers parsed)) =
              Num (subtotal first + sumZ ms) /\
            add (ofInteger (subtotal second)) (reduceAdd (fun m => m) (modifiers parsed)) =
              Num (subtotal second + sumZ ms)).
  { intros ms ms' E E' Hb Hb'. rewrite E in E'. apply map_Num_inj in E'. subst ms'.
    rewrite E. split; apply candidate_total_exact; assumption. }
  destruct (firstSelected mode _ _) eqn:Esel; intros H; inversion H; subst; clear H.
  - eexists _, first, second.
    cbn [DiceRoll.alternateRoll DiceRoll.results DiceRoll.advantageMode
         DiceRoll.modifiers DiceRoll.total].
    split; [reflexivity|]. split; [reflexivity|]. split; [reflexivity|].
    split; [congruence|]. split; [congruence|].
    split; [reflexivity|]. split; [reflexivity|]. split; [reflexivity|].
    intros (ms & E & Hb) (ms' & E' & Hb').
    cbn [DiceRoll.modifiers DiceRoll.results map sumZ fold_right] in E, E', Hb, Hb'.
    destruct (Hexact ms ms' E E' ltac:(lia) ltac:(lia)) as (HA & HB).
    rewrite HA, HB in *. eexists _, _. split; [reflexivity|]. split; [reflexivity|].
    split; [lia|]. unfold firstSelected in Esel.
    split; intros ->; cbn [geb leb] in Esel; apply Z.leb_le in Esel; lia.
  - eexists _, second, first.
    cbn [DiceRoll.alternateRoll DiceRoll.results DiceRoll.advantageMode
         DiceRoll.modifiers DiceRoll.total].
    split; [reflexivity|]. split; [reflexivity|]. split; [reflexivity|].
    split; [congruence|]. split; [congruence|].
    split; [reflexivity|]. split; [reflexivity|]. split; [reflexivity|].
    intros (ms' & E' & Hb') (ms & E & Hb).
    cbn [DiceRoll.modifiers DiceRoll.results map sumZ fold_right] in E, E', Hb, Hb'.
    destruct (Hexact ms ms' E E' ltac:(lia) ltac:(lia)) as (HA & HB).
    rewrite HA, HB in *. eexists _, _. split; [reflexivity|]. split; [reflexivity|].
    split; [lia|]. unfold firstSelected in Esel.
    split; intros ->; cbn [geb leb] in Esel; apply Z.leb_gt in Esel; lia.
Qed.

End SelectionFacts.

Lemma advantage_compares_dice_witness :
  exists alt a b,
    DiceRoll.alternateRoll
      (DiceRoll.mkDiceRollModel "1d20+3" [mkRollResultModel "1d20" [5] 5] [Num 3]
         (Num 8) DISADVANTAGE
         (Some (DiceRoll.mkDiceRollModel "1d20+3" [mkRollResultModel "1d20" [12] 12]
                  [Num 3] (Num 15) DISADVANTAGE None (sampleClock 1%nat)))
         (sampleClock 0%nat)) = Some alt /\
    [mkRollResultModel "1d20" [5] 5] = [a] /\ DiceRoll.results alt = [b].
Proof.
  destruct (advantage_compares_dice (list Z) scriptedInt sampleClock "1d20+3"
              DISADVANTAGE [11; 4] [] _ ltac:(discriminate) eq_refl)
    as (alt & a & b & Halt & Ha & Hb & _).
  exists alt, a, b. split; [exact Halt|]. split; [exact Ha | exact Hb].
Defined.

(** *** Draws made *)

Lemma rollLoop_counting (n : nat) (sides : Z) (acc : list Z) (draws : nat) :
  snd (rollLoop countingInt n sides acc draws) = (draws + n)%nat.
Proof.
  revert acc draws. induction n as [|n IH]; intros acc draws; simpl; [lia|].
  rewrite IH. lia.
Qed.

Lemma rollDiceGroup_counting (dg : DiceGroup) (draws : nat) :
  snd (rollDiceGroup countingInt dg draws) = (draws + Z.to_nat (count dg))%nat.
Proof.
  unfold rollDiceGroup.
  pose proof (rollLoop_counting (Z.to_nat (count dg)) (sides dg) [] draws) as H.
  destruct (rollLoop countingInt (Z.to_nat (count dg)) (sides dg) [] draws) as [rs d'].
  exact H.
Qed.

Lemma rollAll_counting (groups : list DiceGroup) (draws : nat) :
  snd (rollAll countingInt groups draws) =
  (draws + fold_right (fun dg n => Z.to_nat (count dg) + n) 0 groups)%nat.
Proof.
  revert draws. induction groups as [|dg groups IH]; intros draws; simpl; [lia|].
  pose proof (rollDiceGroup_counting dg draws) as H.
  destruct (rollDiceGroup countingInt dg draws) as [r d1]. cbn [snd] in H.
  specialize (IH d1). destruct (rollAll countingInt groups d1) as [rs d2].
  cbn [snd] in *. lia.
Qed.

(** X12: counted on a generator that only counts its calls, a plain roll
    makes as many draws as the counts of the parsed groups add up to, a roll
    with advantage or disadvantage twice the count of its one group, and a
    roll that throws makes none. *)
Theorem roll_draw_count (now : nat -> string) (expression : string)
    (mode : AdvantageMode) (draws : nat) :
  snd (roll countingInt now expression mode draws) =
  match parse expression with
  | Throw _ => draws
  | Return parsed =>
      if negb (isValid parsed) then draws
      else match mode, diceGroups parsed with
           | NONE, groups =>
               (draws + fold_right (fun dg n => Z.to_nat (count dg) + n) 0 groups)%nat
           | _, [dg] => (draws + 2 * Z.to_nat (count dg))%nat
           | _, _ => draws
           end
  end.
Proof.
  destruct (parse expression) as [parsed|e] eqn:Hp;
    [|rewrite (roll_parse_throw _ _ _ _ _ _ _ Hp); reflexivity].
  destruct (isValid parsed) eqn:Hv;
    [|rewrite (roll_invalid _ _ _ _ _ _ _ Hp Hv); reflexivity].
  cbn [negb].
  assert (Hadv : forall m, m <> NONE ->
            snd (roll countingInt now expression m draws) =
            match diceGroups parsed with
            | [dg] => (draws + 2 * Z.to_nat (count dg))%nat
            | _ => draws
            end).
  { intros m Hm.
    destruct (Nat.eq_dec (length (diceGroups parsed)) 1) as [Hl|Hl].
    - destruct (diceGroups parsed) as [|group [|? ?]] eqn:Hg; try discriminate.
      rewrite (roll_single _ _ _ _ m _ _ _ Hp Hv Hm Hg). cbv zeta. cbn [snd].
      rewrite !rollDiceGroup_counting. lia.
    - rewrite (roll_not_single _ _ _ _ m _ _ Hp Hv Hm Hl).
      destruct (diceGroups parsed) as [|group [|? ?]]; try reflexivity.
      simpl in Hl. congruence. }
  destruct mode.
  - rewrite (roll_plain _ _ _ _ _ _ Hp Hv). cbn [snd]. apply rollAll_counting.
  - rewrite (Hadv ADVANTAGE ltac:(discriminate)).
    destruct (diceGroups parsed) as [|? [|? ?]]; reflexivity.
  - rewrite (Hadv DISADVANTAGE ltac:(discriminate)).
    destruct (diceGroups parsed) as [|? [|? ?]]; reflexivity.
Qed.

(** ** The HTTP layer: [rollDice], [healthCheck] and [errorHandler]

    The request body is the object [express.json()] parsed; the handler only
    looks at two of its properties, and of each only at whether it is a
    string, which string, and whether it is truthy.  A response is the status
    passed to [res.status] and the object passed to [res.json].  The
    [console.error] line of the error handler is not part of the response and
    is left out. *)

Module Http.

Inductive JsValue : Type :=
| JsUndefined                    (* the property is absent *)
| JsString (s : string)
| JsOther (truthy : bool).       (* null, a boolean, a number, an array, an object *)

Definition isTruthy (v : JsValue) : bool :=
  match v with
  | JsUndefined => false
  | JsString EmptyString => false
  | JsString (String _ _) => true
  | JsOther b => b
  end.

Record RequestBody : Type := mkRequestBody {
  expression : JsValue;
  advantageMode : JsValue
}.

Inductive ResponseBody : Type :=
| ErrorJson (error message : string) (details : list string) (timestamp : string)
| RollJson (result : DiceRoll.DiceRollModel)
| HealthJson (status timestamp : string).

Record Response : Type := mkResponse {
  status : Z;
  body : ResponseBody
}.

(** What the error handler reads of an error object. *)
Record ErrorObject : Type := mkErrorObject {
  name : string;
  message : string;
  statusCode : option Z
}.

(** The two error classes of the middleware: both set [statusCode = 400] and
    their own [name]. *)
Definition errorObject (e : AppError) : ErrorObject :=
  match e with
  | AppValidationError msg => mkErrorObject "ValidationError" msg (Some 400)
  | ResourceLimitError msg => mkErrorObject "ResourceLimitError" msg (Some 400)
  end.

(** The string values of the [AdvantageMode] enum. *)
Definition modeValue (m : AdvantageMode) : string :=
  match m with
  | NONE => "none"
  | ADVANTAGE => "advantage"
  | DISADVANTAGE => "disadvantage"
  end.

(** [Object.values(AdvantageMode)]. *)
Definition modeValues : list string := map modeValue [NONE; ADVANTAGE; DISADVANTAGE].

(** [Object.values(AdvantageMode).includes(v)] followed by the cast: the mode
    whose value is strictly equal to [v], if any. *)
Definition modeOfValue (v : JsValue) : option AdvantageMode :=
  match v with
  | JsString s =>
      if String.eqb s "none" then Some NONE
      else if String.eqb s "advantage" then Some ADVANTAGE
      else if String.eqb s "disadvantage" then Some DISADVANTAGE
      else None
  | _ => None
  end.

(** How a handler ends: it sent a response, or it passed an error on. *)
Inductive Handled : Type :=
| Responded (r : Response)
| Next (e : AppError).

End Http.

Section Controller.

Variable Rng : Type.
Variable randomInt : Z -> Z -> Rng -> Z * Rng.
Variable now : nat -> string.

(** The error handler is reached when the service has thrown, which it does
    before constructing any record: its reading of the clock is the first of
    the request, as is the reading of each response the controller builds
    itself. *)
Definition errorHandler (err : Http.ErrorObject) : Http.Response :=
  let statusCode :=
    match Http.statusCode err with
    | Some c => if c =? 0 then 500 else c
    | None => 500
    end in
  let message :=
    match Http.message err with
    | EmptyString => "Internal Server Error"
    | m => m
    end in
  Http.mkResponse statusCode
    (Http.ErrorJson (match Http.name err with EmptyString => "Error" | n => n end)
       message [] (now 0%nat)).

Definition rollDice (body : Http.RequestBody) (g : Rng) : Http.Handled * Rng :=
  match Http.expression body with
  | Http.JsString (String c e) =>
      let expression := String c e in
      let checked :=
        if Http.isTruthy (Http.advantageMode body)
        then Http.modeOfValue (Http.advantageMode body)
        else Some NONE in
      match checked with
      | None =>
          (Http.Responded
             (Http.mkResponse 400
                (Http.ErrorJson "ValidationError"
                   ("Invalid advantageMode. Must be one of: " ++
                    Js.join ", " Http.modeValues) [] (now 0%nat))), g)
      | Some mode =>
          match roll randomInt now expression mode g with
          | (Return result, g') =>
              (Http.Responded (Http.mkResponse 200 (Http.RollJson result)), g')
          | (Throw error, g') => (Http.Next error, g')
          end
      end
  | _ =>
      (Http.Responded
         (Http.mkResponse 400
            (Http.ErrorJson "ValidationError"
               "Expression is required and must be a string" [] (now 0%nat))), g)
  end.

Definition healthCheck : Http.Response :=
  Http.mkResponse 200 (Http.HealthJson "healthy" (now 0%nat)).

(** [POST /api/dice/roll] in the application: [rollDice], with the error
    handler registered last taking what [next] is given. *)
Definition postRoll (body : Http.RequestBody) (g : Rng) : Http.Response * Rng :=
  match rollDice body g with
  | (Http.Responded r, g') => (r, g')
  | (Http.Next e, g') => (errorHandler (Http.errorObject e), g')
  end.

End Controller.

Arguments rollDice {Rng} randomInt now body g.
Arguments postRoll {Rng} randomInt now body g.

Lemma modeOfValue_Some (v : Http.JsValue) (mode : AdvantageMode) :
  Http.modeOfValue v = Some mode <-> v = Http.JsString (Http.modeValue mode).
Proof.
  split.
  - destruct v as [|s|b]; simpl; try discriminate.
    destruct (String.eqb s "none") eqn:E1;
      [apply String.eqb_eq in E1; intros H; inversion H; subst; reflexivity|].
    destruct (String.eqb s "advantage") eqn:E2;
      [apply String.eqb_eq in E2; intros H; inversion H; subst; reflexivity|].
    destruct (String.eqb s "disadvantage") eqn:E3;
      [apply String.eqb_eq in E3; intros H; inversion H; subst; reflexivity|].
    discriminate.
  - intros ->. destruct mode; reflexivity.
Qed.

Section ControllerFacts.

Variable Rng : Type.
Variable randomInt : Z -> Z -> Rng -> Z * Rng.
Variable now : nat -> string.

(** X13: the roll endpoint answers 200 with a roll record exactly when the
    body's expression is a non-empty string, its advantageMode is falsy
    (absent, empty, null, 0, false: read as none) or exactly one of
    ["none"], ["advantage"], ["disadvantage"], and the service returns that
    record for them. *)
Theorem post_roll_ok_iff (body : Http.RequestBody) (g g' : Rng)
    (r : DiceRoll.DiceRollModel) :
  postRoll randomInt now body g = (Http.mkResponse 200 (Http.RollJson r), g') <->
  exists e mode,
    Http.expression body = Http.JsString e /\ e <> "" /\
    ((Http.isTruthy (Http.advantageMode body) = false /\ mode = NONE) \/
     Http.advantageMode body = Http.JsString (Http.modeValue mode)) /\
    roll randomInt now e mode g = (Return r, g').
Proof.
  unfold postRoll, rollDice. split.
  - destruct (Http.expression body) as [|[|c e]|b] eqn:Ee; try discriminate.
    destruct (Http.isTruthy (Http.advantageMode body)) eqn:Et; cbv zeta.
    + destruct (Http.modeOfValue (Http.advantageMode body)) as [mode|] eqn:Em;
        [|discriminate].
      destruct (roll randomInt now (String c e) mode g) as [[res|err] g1] eqn:Er;
        [|unfold errorHandler; destruct err; discriminate].
      intros H; inversion H; subst.
      exists (String c e), mode. repeat split; try discriminate; auto.
      right. apply modeOfValue_Some. exact Em.
    + destruct (roll randomInt now (String c e) NONE g) as [[res|err] g1] eqn:Er;
        [|unfold errorHandler; destruct err; discriminate].
      intros H; inversion H; subst.
      exists (String c e), NONE. repeat split; try discriminate; auto.
  - intros (e & mode & -> & Hne & Hmode & Hroll).
    destruct e as [|c e]; [congruence|].
    destruct Hmode as [(Ht & ->) | Hv].
    + rewrite Ht. cbv zeta. rewrite Hroll. reflexivity.
    + rewrite Hv. replace (Http.isTruthy (Http.JsString (Http.modeValue mode))) with true
        by (destruct mode; reflexivity).
      rewrite (proj2 (modeOfValue_Some _ mode) eq_refl). cbv zeta.
      rewrite Hroll. reflexivity.
Qed.

(** X14: whatever the body, the roll endpoint answers 200 with a roll record
    or 400, never 500; a 400 answer names [ValidationError] or
    [ResourceLimitError], carries a message that is not empty (the handler's
    fallback texts are never sent) and an empty [details], and no die was
    drawn for it. *)
Theorem post_roll_status (body : Http.RequestBody) (g : Rng) :
  (exists r g',
     postRoll randomInt now body g = (Http.mkResponse 200 (Http.RollJson r), g')) \/
  (exists name msg,
     postRoll randomInt now body g =
       (Http.mkResponse 400 (Http.ErrorJson name msg [] (now 0%nat)), g) /\
     (name = "ValidationError" \/ name = "ResourceLimitError") /\ msg <> "").
Proof.
  assert (Hroll : forall e mode,
    (exists r g',
       match
         match roll randomInt now e mode g with
         | (Return result, g0) =>
             (Http.Responded (Http.mkResponse 200 (Http.RollJson result)), g0)
         | (Throw error, g0) => (Http.Next error, g0)
         end
       with
       | (Http.Responded r0, g0) => (r0, g0)
       | (Http.Next e0, g0) => (errorHandler now (Http.errorObject e0), g0)
       end = (Http.mkResponse 200 (Http.RollJson r), g')) \/
    (exists name msg,
       match
         match roll randomInt now e mode g with
         | (Return result, g0) =>
             (Http.Responded (Http.mkResponse 200 (Http.RollJson result)), g0)
         | (Throw error, g0) => (Http.Next error, g0)
         end
       with
       | (Http.Responded r0, g0) => (r0, g0)
       | (Http.Next e0, g0) => (errorHandler now (Http.errorObject e0), g0)
       end = (Http.mkResponse 400 (Http.ErrorJson name msg [] (now 0%nat)), g) /\
       (name = "ValidationError" \/ name = "ResourceLimitError") /\ msg <> "")).
  { intros e mode.
    destruct (roll randomInt now e mode g) as [[res|err] g1] eqn:Er.
    - left. eauto.
    - right. destruct (roll_throw_inv _ _ _ _ _ _ _ _ Er) as (-> & msg & Hkind & Hne).
      destruct msg as [|c t]; [congruence|].
      destruct Hkind as [-> | ->]; eexists _, _;
        (split; [reflexivity|]); split; auto; discriminate. }
  unfold postRoll, rollDice.
  destruct (Http.expression body) as [|[|c e]|b];
    try (right; eexists _, _; split; [reflexivity|]; split; [auto | discriminate]).
  destruct (Http.isTruthy (Http.advantageMode body)); cbv zeta.
  - destruct (Http.modeOfValue (Http.advantageMode body)) as [mode|].
    + apply Hroll.
    + right. eexists _, _. split; [reflexivity|]. split; [auto | discriminate].
  - apply Hroll.
Qed.

(** X15: an empty expression and a blank one are turned down at different
    places: the empty string (like a missing or non-string expression) by the
    controller, a string of white space by the parser, each with its own
    message, both as a 400 [ValidationError]. *)
Theorem blank_expression_responses (w : string) (v : Http.JsValue) (g : Rng) :
  allWhiteSpace w = true ->
  Http.isTruthy v = false \/ (exists mode, v = Http.JsString (Http.modeValue mode)) ->
  postRoll randomInt now (Http.mkRequestBody (Http.JsString w) v) g =
  (Http.mkResponse 400
     (Http.ErrorJson "ValidationError"
        (match w with
         | EmptyString => "Expression is required and must be a string"
         | String _ _ => "Expression cannot be empty"
         end) [] (now 0%nat)), g).
Proof.
  intros Hw Hv. unfold postRoll, rollDice. cbn [Http.expression Http.advantageMode].
  destruct w as [|c w']; [reflexivity|].
  assert (Hp : parse (String c w') =
               Return (createInvalid (String c w') [emptyExpressionError])).
  { apply trimmedOf_empty in Hw. rewrite parse_tokens, Hw. reflexivity. }
  assert (Hr : forall mode, roll randomInt now (String c w') mode g =
                 (Throw (AppValidationError "Expression cannot be empty"), g)).
  { intros mode. rewrite (roll_invalid _ _ _ _ mode _ _ Hp eq_refl). reflexivity. }
  destruct Hv as [Hv | (mode & ->)].
  - rewrite Hv. cbv zeta. rewrite Hr. reflexivity.
  - replace (Http.isTruthy (Http.JsString (Http.modeValue mode))) with true
      by (destruct mode; reflexivity).
    rewrite (proj2 (modeOfValue_Some _ mode) eq_refl). cbv zeta.
    rewrite Hr. reflexivity.
Qed.

End ControllerFacts.

Lemma blank_expression_responses_witness :
  postRoll scriptedInt sampleClock (Http.mkRequestBody (Http.JsString "  ") Http.JsUndefined)
    [1; 2] =
  (Http.mkResponse 400
     (Http.ErrorJson "ValidationError" "Expression cannot be empty" []
        (sampleClock 0%nat)), [1; 2]).
Proof.
  exact (blank_expression_responses (list Z) scriptedInt sampleClock "  " Http.JsUndefined [1; 2]
           eq_refl (or_introl eq_refl)).
Defined.

Lemma plain_roll_structure_witness :
  exists parsed,
    parse "2d6 1d4 +3" = Return parsed /\
    map groupNotation (diceGroups parsed) = ["2d6"; "1d4"].
Proof.
  destruct (plain_roll_structure (list Z) scriptedInt sampleClock "2d6 1d4 +3" [3; 4; 2] [] _
              eq_refl) as (parsed & Hp & _ & _ & _ & _ & _ & Hn & _).
  exists parsed. split; [exact Hp|]. rewrite <- Hn. reflexivity.
Defined.

Lemma roll_throw_no_draw_witness : "Invalid dice notation format" <> "".
Proof.
  exact (proj2 (roll_throw_no_draw (list Z) scriptedInt sampleClock "abc" ADVANTAGE [1; 2] [1; 2]
                  (AppValidationError "Invalid dice notation format") eq_refl)
           "Invalid dice notation format" eq_refl).
Defined.

(** X17: an input that opens, after white space, with a dice group whose count
    is above 1000 or whose sides are above 10000 makes [parse] throw the
    resource-limit error, whatever follows the group. *)
Theorem oversized_leading_group_throws (w : string) (c d x : ascii) (cs ds rest : string) :
  allWhiteSpace w = true ->
  allDigits (String c cs) = true -> allDigits (String d ds) = true -> isD x = true ->
  startsWithDigit rest = false ->
  gtb (parseInt (String c cs)) (Num MAX_DICE) = true \/
  gtb (parseInt (String d ds)) (Num MAX_SIDES) = true ->
  exists msg,
    parse (w ++ String c cs ++ String x (String d ds) ++ rest) =
    Throw (ResourceLimitError msg).
Proof.
  intros Hw Hc Hd Hx Hrest Hover.
  apply oversized_leading_group; try assumption.
  destruct (parseInt_digits_compare c cs MAX_DICE Hc (proj1 (proj2 small_constants)))
    as (Ec & _).
  destruct (parseInt_digits_compare d ds MAX_SIDES Hd (proj2 (proj2 small_constants)))
    as (Es & _).
  rewrite Ec, Es in Hover.
  destruct Hover as [H|H]; apply Z.ltb_lt in H; [left | right]; lia.
Qed.

Lemma oversized_leading_group_throws_witness :
  exists msg, parse (" " ++ "1001" ++ String "D" "9" ++ "+2x") = Throw (ResourceLimitError msg).
Proof.
  apply (oversized_leading_group_throws " " "1" "9" "D" "001" "" "+2x");
    try reflexivity.
  left. vm_compute. reflexivity.
Defined.

(** X16: [roll] throws a validation error in exactly two situations, and then
    without drawing: the parser returned an invalid expression, and the
    message is its error messages joined with "; "; or the mode is advantage
    or disadvantage and the parsed expression does not have exactly one dice
    group, with the fixed message about single dice groups. *)
Theorem roll_validation_error_exactly (Rng : Type)
    (randomInt : Z -> Z -> Rng -> Z * Rng) (now : nat -> string) (expression : string)
    (mode : AdvantageMode) (g g' : Rng) (msg : string) :
  roll randomInt now expression mode g = (Throw (AppValidationError msg), g') <->
  g' = g /\
  exists parsed, parse expression = Return parsed /\
    ((isValid parsed = false /\
      msg = join "; " (map message (validationErrors parsed))) \/
     (isValid parsed = true /\ mode <> NONE /\ length (diceGroups parsed) <> 1%nat /\
      msg = "Advantage/disadvantage only supports single dice group (e.g., 1d20)")).
Proof. apply roll_validation_error_iff. Qed.
